(** * jimeng.py: the window pool, the dispatch loop and the expand job

    A shallow embedding of [docs/jimeng.py].  The module keeps a global
    list [windows] of browser windows (the workers), a global cursor
    [window_index], and serves every request by the coroutine
    [jimeng_expand]: pick a window round-robin, take a token from its
    bucket, lazily connect to the browser, drive the page, and release
    the token in a [finally] block.

    Coroutines are interleaved cooperatively, so a job is modelled as a
    resumable machine: a program counter [pc] names the [await] at which
    the coroutine is suspended, and [step] runs the code between two
    suspension points atomically on the shared [global] state, given what
    the awaited collaborator answered ([resume]). *)

From stdpp Require Import gmap strings list.
From Stdlib Require Import ZArith Lia.

Local Open Scope Z_scope.

(** ** Exceptions *)

Inductive exn :=
| BizException (code : Z) (message : string)
| Exception (message : string)
| ZeroDivisionError
| UnboundLocalError
| TypeError
| KeyError (key : string)
| PlaywrightTimeoutError
| ExternalError (message : string).

(** [str(e)], as far as the code inspects it. *)
Definition str (e : exn) : string :=
  match e with
  | BizException _ m => m
  | Exception m => m
  | ZeroDivisionError => "integer division or modulo by zero"
  | UnboundLocalError => "cannot access local variable"
  | TypeError => "can only concatenate str to str"
  | KeyError k => k
  | PlaywrightTimeoutError => "Timeout exceeded"
  | ExternalError m => m
  end.

(** What a collaborator (Playwright, requests, PIL, the JSON parser)
    raises: a timeout or some other failure, never a [BizException]. *)
Inductive foreign :=
| Timeout
| Failure (message : string).

Definition thrown (f : foreign) : exn :=
  match f with
  | Timeout => PlaywrightTimeoutError
  | Failure m => ExternalError m
  end.

(** ** The token bucket *)

(** Modelled from the spec: the class [rates.TokenBucket] of the imported
    package [cutils] is not among the sources.  The spec (4.1) describes a
    bucket with a fixed [capacity] and a count of [available] permits, a
    non-blocking try-acquire that takes one permit when there is one, a
    release that gives one back without exceeding the capacity, and a
    refill that happens in the background. *)
Record TokenBucket := mkBucket { capacity : Z; available : Z }.

Definition get_token (b : TokenBucket) : bool * TokenBucket :=
  if 0 <? available b
  then (true, mkBucket (capacity b) (available b - 1))
  else (false, b).

Definition release (b : TokenBucket) : TokenBucket :=
  mkBucket (capacity b) (Z.min (capacity b) (available b + 1)).

Definition refill (b : TokenBucket) : TokenBucket :=
  mkBucket (capacity b) (Z.min (capacity b) (available b + 1)).

(** ** Windows and the module's global state *)

(** One entry of [windows]: a Python dict with the keys below.  The
    browser connection [instance] stays [None] until first use. *)
Record window := mkWindow {
  name : string;
  window_id : string;
  debug_url : string;
  token_bucket : TokenBucket;
  instance : option nat
}.

Definition with_bucket (b : TokenBucket) (w : window) : window :=
  mkWindow (name w) (window_id w) (debug_url w) b (instance w).

Definition with_instance (h : nat) (w : window) : window :=
  mkWindow (name w) (window_id w) (debug_url w) (token_bucket w) (Some h).

(** The dicts are shared objects: the list [windows] and the local
    variable [window] of every running job refer to the same dict.  The
    [heap] maps an object's address to its contents, [windows] holds
    addresses.  Time is counted in milliseconds. *)
Record global := mkGlobal {
  heap : gmap nat window;
  windows : list nat;
  window_index : nat;
  clock : Z;
  C_CUSTOM_KEY_MACHINE : string
}.

Definition set_heap (h : gmap nat window) (g : global) : global :=
  mkGlobal h (windows g) (window_index g) (clock g) (C_CUSTOM_KEY_MACHINE g).

Definition set_windows (ws : list nat) (g : global) : global :=
  mkGlobal (heap g) ws (window_index g) (clock g) (C_CUSTOM_KEY_MACHINE g).

Definition set_window_index (i : nat) (g : global) : global :=
  mkGlobal (heap g) (windows g) i (clock g) (C_CUSTOM_KEY_MACHINE g).

Definition set_clock (t : Z) (g : global) : global :=
  mkGlobal (heap g) (windows g) (window_index g) t (C_CUSTOM_KEY_MACHINE g).

Definition name_of (g : global) (a : nat) : option string :=
  name <$> heap g !! a.

(** What the outside world can observe of a run. *)
Inductive event :=
| EvSelect (w : nat)           (* windows[window_index % len(windows)] *)
| EvSleep (ms : Z)             (* asyncio.sleep(5) *)
| EvProvision (w : nat)        (* instance found None at line 293: the job goes to connect_over_cdp *)
| EvAlert (message : string)   (* utils.sendAlert(...) *)
| EvRelease (w : nat).         (* window['token_bucket'].release() *)

Global Instance event_eq_dec : EqDecision event.
Proof. solve_decision. Defined.

(** [windows = [w for w in windows if w['name'] != window_name]] *)
Definition evict (window_name : string) (g : global) : global :=
  set_windows (filter (λ a, name_of g a ≠ Some window_name) (windows g)) g.

(** [if os.environ.get('C_CUSTOM_KEY_MACHINE', '') != 'MY_DEV': utils.sendAlert(..., message)]
    The alert is fire-and-forget (spec, 3): it is recorded and does not
    raise. *)
Definition sendAlert_unless_dev (message : string) (g : global) : list event :=
  if decide (C_CUSTOM_KEY_MACHINE g ≠ "MY_DEV") then [EvAlert message] else [].

Definition release_bucket (w : nat) (g : global) : global :=
  set_heap (alter (λ o, with_bucket (release (token_bucket o)) o) w (heap g)) g.

(** ** What the collaborators answer *)

(** The [user_credit] response body; absent keys read as [None]. *)
Record credit_body := mkCredit {
  c_ret : option string;
  gift_credit : option Z;
  purchase_credit : option Z;
  vip_credit : option Z
}.

(** The entries of [item_list], as far as the loop of lines 396-401
    tells them apart.  [ItemObj] is an item whose [large_images] is a
    list (absent or empty: []), [ImageObj] a large image that is an
    object, with its [image_url] if it has one.  [ItemMalformed] and
    [ImageMalformed] stand for a value on which the loop body raises
    (the [.get] of something that is not an object). *)
Inductive json_image := ImageMalformed | ImageObj (image_url : option string).
Inductive json_item := ItemMalformed | ItemObj (large_images : list json_image).

(** The [painting] response body. *)
Record paint_body := mkPaint {
  p_ret : option string;
  errmsg : option string;
  item_list : list json_item
}.

(** An awaited HTTP response: the wait raised, or a status code arrived
    together with a text that [jsons.load] parses or rejects. *)
Inductive http_reply (B : Type) :=
| ReplyRaise (e : foreign)
| Reply (status : Z) (body : foreign + B).
Arguments ReplyRaise {B} e.
Arguments Reply {B} status body.

(** [os.path.exists(file_path)], [Image.open(file_path)], [img.size] *)
Inductive file_info :=
| FileMissing
| FileUnreadable (e : foreign)
| FileImage (width height : Z).

(** The clicks on the image-edit page (lines 350-367). *)
Inductive interact_result :=
| InteractOk
| InteractTimeout              (* PlaywrightTimeoutError inside the inner try *)
| InteractRaise (e : foreign).     (* anything else, page.goto included *)

Inductive resume :=
| Wake
| Connected (r : foreign + nat)
| PageOpened (r : option foreign)
| CreditResponse (r : http_reply credit_body) (f : file_info)
| Interacted (r : interact_result)
| PageClosed (r : option foreign)
| PaintingResponse (r : http_reply paint_body).

(** ** The coroutine [jimeng_expand] *)

Inductive outcome :=
| Return (images_url : list (option string))
| Raise (e : exn).

Record locals := mkLocals {
  image_ref_path : string;
  window_ : nat;
  window_name : string
}.

Inductive pc :=
| PSleep (image_ref_path : string) (start_at_lock wake_at : Z)
| PConnect (l : locals)
| PNewPage (l : locals)
| PCredit (l : locals)
| PInteract (l : locals)
| PHandlerClose (l : locals)
| PPainting (l : locals)
| PFinalClose (l : locals) (o : outcome)
| PDone (o : outcome).

Definition bracket (window_name rest : string) : string :=
  "[" +:+ window_name +:+ "] " +:+ rest.

(** The [finally] block: release first, then close the page if one was
    opened (unless the machine is [MY_DEV1]); errors of that close are
    logged and dropped. *)
Definition finally_ (l : locals) (page : bool) (o : outcome) (g : global)
  : pc * global * list event :=
  let g' := release_bucket (window_ l) g in
  if page && bool_decide (C_CUSTOM_KEY_MACHINE g ≠ "MY_DEV1")
  then (PFinalClose l o, g', [EvRelease (window_ l)])
  else (PDone o, g', [EvRelease (window_ l)]).

(** Lines 281-297: one turn of the acquisition loop, from the [while]
    test up to the first suspension: the sleep after a refused token, or
    the browser connection, or the new page. *)
Definition acquire_turn (path : string) (start_at_lock : Z) (g : global)
  : option (pc * global * list event) :=
  if 60 * 5 * 1000 <? clock g - start_at_lock
  then Some (PDone (Raise (Exception "get token bucket timeout")), g, [])
  else
    match windows g with
    | [] => Some (PDone (Raise ZeroDivisionError), g, [])
    | _ :: _ =>
      w ← windows g !! (window_index g `mod` length (windows g))%nat;
      let g1 := set_window_index (S (window_index g)) g in
      o ← heap g1 !! w;
      let '(ok, b) := get_token (token_bucket o) in
      if negb ok
      then Some (PSleep path start_at_lock (clock g1 + 5 * 1000), g1,
                 [EvSelect w; EvSleep (5 * 1000)])
      else
        let g2 := set_heap (<[w := with_bucket b o]> (heap g1)) g1 in
        let l := mkLocals path w (name o) in
        match instance o with
        | None => Some (PConnect l, g2, [EvSelect w; EvProvision w])
        | Some _ => Some (PNewPage l, g2, [EvSelect w])
        end
    end.

(** Lines 320-323; [.get(key, 0)] reads an absent key as 0. *)
Definition total_credit (body : credit_body) : Z :=
  default 0 (gift_credit body) + default 0 (purchase_credit body)
  + default 0 (vip_credit body).

(** Lines 313-347, run when the credit response arrives. *)
Definition credit_turn (l : locals) (r : http_reply credit_body)
    (f : file_info) (g : global) : pc * global * list event :=
  let fin o := finally_ l true o g in
  let request_error := Raise (Exception (bracket (window_name l) "request error")) in
  match r with
  | ReplyRaise e => fin (Raise (thrown e))
  | Reply _ (inl e) => fin (Raise (thrown e))
  | Reply status (inr body) =>
    if bool_decide (status ≠ 200) then fin request_error
    else match c_ret body with
    | None => fin (Raise (KeyError "ret"))
    | Some ret =>
      if bool_decide (ret ≠ "0") then fin request_error
      else
        if total_credit body <? 15 then
          let g1 := evict (window_name l) g in
          let message := bracket (window_name l) "积分不足" in
          let alert := sendAlert_unless_dev message g1 in
          let '(p, g2, evs) := finally_ l true (Raise (BizException 1100 message)) g1 in
          (p, g2, alert ++ evs)
        else
          match f with
          | FileMissing =>
            fin (Raise (Exception (bracket (window_name l)
                   ("input_path not exists, file_path=" +:+ image_ref_path l))))
          | FileUnreadable e => fin (Raise (thrown e))
          | FileImage _ height =>
            if height =? 0 then fin (Raise ZeroDivisionError)
            else if 3 * height <? 1080
            then fin (Raise (BizException 1005 (bracket (window_name l) "图片尺寸过低，无法上传")))
            else (PInteract l, g, [])
          end
    end
  end.

(** Lines 396-401: the loop over [item_list]; [None] when it raises. *)
Fixpoint parse_items (items : list json_item) : option (list (option string)) :=
  match items with
  | [] => Some []
  | ItemMalformed :: _ => None
  | ItemObj [] :: rest => parse_items rest
  | ItemObj (ImageMalformed :: _) :: _ => None
  | ItemObj (ImageObj image_url :: _) :: rest =>
    cons image_url <$> parse_items rest
  end.

(** Lines 382-391: the response is not a plain success. *)
Definition painting_error (l : locals) (body : paint_body) (g : global)
  : outcome * global * list event :=
  match p_ret body with
  | None => (Raise (KeyError "ret"), g, [])
  | Some ret =>
    let rate_limited : exn + bool :=
      if bool_decide (ret = "1") then
        match errmsg body with
        | None => inl (KeyError "errmsg")
        | Some m => inr (bool_decide (m = "api rate limit"))
        end
      else inr false in
    match rate_limited with
    | inl e => (Raise e, g, [])
    | inr true => (Raise (BizException 1003 (bracket (window_name l) "api限速")), g, [])
    | inr false =>
      let banned := bool_decide (ret = "1018") in
      let g1 := if banned then evict (window_name l) g else g in
      let message := if banned then Some (bracket (window_name l) "被封号") else None in
      if bool_decide (C_CUSTOM_KEY_MACHINE g1 ≠ "MY_DEV") then
        match message with
        | None => (Raise UnboundLocalError, g1, [])
        | Some m => (Raise (BizException 1101 m), g1, [EvAlert m])
        end
      else (Raise (Exception "request error"), g1, [])
    end
  end.

(** Lines 377-407, run when the painting response arrives. *)
Definition painting_turn (l : locals) (r : http_reply paint_body) (g : global)
  : pc * global * list event :=
  match r with
  | ReplyRaise e => finally_ l true (Raise (thrown e)) g
  | Reply _ (inl e) => finally_ l true (Raise (thrown e)) g
  | Reply status (inr body) =>
    let failed : exn + bool :=
      if bool_decide (status ≠ 200) then inr true
      else match p_ret body with
           | None => inl (KeyError "ret")
           | Some ret => inr (bool_decide (ret ≠ "0"))
           end in
    match failed with
    | inl e => finally_ l true (Raise e) g
    | inr true =>
      let '(o, g1, evs) := painting_error l body g in
      let '(p, g2, evs') := finally_ l true o g1 in
      (p, g2, evs ++ evs')
    | inr false =>
      match parse_items (item_list body) with
      | None =>
        finally_ l true (Raise (BizException 1004 (bracket (window_name l) "解析图片URL失败"))) g
      | Some [] =>
        finally_ l true (Raise (BizException 1005 (bracket (window_name l) "未找到图片URL"))) g
      | Some images_url => finally_ l true (Return images_url) g
      end
    end
  end.

(** One atomic turn of a job: from the suspension point [p], resumed
    with [r].  [None] when [r] is not what [p] waits for, when a sleeping
    job is woken early, or when the job has finished. *)
Definition step (r : resume) (p : pc) (g : global)
  : option (pc * global * list event) :=
  match p, r with
  | PSleep path start_at_lock wake_at, Wake =>
    if wake_at <=? clock g then acquire_turn path start_at_lock g else None
  | PConnect l, Connected (inl e) => Some (PDone (Raise (thrown e)), g, [])
  | PConnect l, Connected (inr h) =>
    Some (PNewPage l, set_heap (alter (with_instance h) (window_ l) (heap g)) g, [])
  | PNewPage l, PageOpened (Some e) => Some (finally_ l false (Raise (thrown e)) g)
  | PNewPage l, PageOpened None => Some (PCredit l, g, [])
  | PCredit l, CreditResponse r f => Some (credit_turn l r f g)
  | PInteract l, Interacted InteractOk => Some (PPainting l, g, [])
  | PInteract l, Interacted InteractTimeout =>
    Some (PHandlerClose l, evict (window_name l) g, [])
  | PInteract l, Interacted (InteractRaise e) => Some (finally_ l true (Raise (thrown e)) g)
  | PHandlerClose l, PageClosed (Some e) => Some (finally_ l true (Raise (thrown e)) g)
  | PHandlerClose l, PageClosed None =>
    let message := bracket (window_name l) "请求页面位置超时" in
    let '(p', g', evs) := finally_ l true (Raise (BizException 1006 message)) g in
    Some (p', g', sendAlert_unless_dev message g ++ evs)
  | PPainting l, PaintingResponse r => Some (painting_turn l r g)
  | PFinalClose l o, PageClosed _ => Some (PDone o, g, [])
  | _, _ => None
  end.

(** ** [process_img] and [download_image] *)

Record payload := mkPayload { output_images : list string }.

Record response := mkResponse {
  code : Z;
  data : option payload;
  message : string
}.

Definition resp_ok (d : payload) : response := mkResponse 0 (Some d) "ok".

(** [download_image]: [fetch index url] stands for the GET, the write to
    disk and [os.path.relpath]; whatever goes wrong becomes error 1004.
    (The message of line 175 also carries the request id, which is not
    followed here; only the code is relied upon.) *)
Fixpoint download_from (fetch : nat → option string → foreign + string)
    (index : nat) (image_urls : list (option string)) : exn + list string :=
  match image_urls with
  | [] => inr []
  | image_url :: rest =>
    match fetch index image_url with
    | inl _ => inl (BizException 1004 "图片下载失败")
    | inr relative_path =>
      match download_from fetch (S index) rest with
      | inl e => inl e
      | inr inner_imgs => inr (relative_path :: inner_imgs)
      end
    end
  end.

Definition download_image fetch image_urls := download_from fetch 0%nat image_urls.

(** [process_img], given how [await jimeng_expand(...)] ended. *)
Definition process_img (fetch : nat → option string → foreign + string)
    (expanded : outcome) : response :=
  let on_error e :=
    match e with
    | BizException c m => mkResponse c None m
    | _ => mkResponse 1000 None (str e)
    end in
  match expanded with
  | Raise e => on_error e
  | Return output_path =>
    match download_image fetch output_path with
    | inl e => on_error e
    | inr inner_imgs => resp_ok (mkPayload inner_imgs)
    end
  end.

(** ** [open_window] *)

Definition busy_message : string := "浏览器正在关闭中，请稍后操作".

(** [needle in hay] *)
Fixpoint contains (needle hay : string) : bool :=
  String.prefix needle hay ||
  match hay with
  | EmptyString => false
  | String _ hay' => contains needle hay'
  end.

(** One POST to [/browser/open]. *)
Inductive open_reply :=
| OpenRaise (e : foreign)          (* the request, raise_for_status or jsons.load raised *)
| OpenBody (text : string) (success : bool) (http : option string).

(** The body of the [try]: lines 187-205. *)
Definition open_attempt (r : open_reply) : exn + string :=
  match r with
  | OpenRaise e => inl (thrown e)
  | OpenBody text success http =>
    if negb success then inl (Exception ("open window error, err=" +:+ text))
    else match http with
         | None | Some EmptyString => inl TypeError   (* 'http://' + {} *)
         | Some debug_url => inr ("http://" +:+ debug_url)
         end
  end.

(** The [while True] of [open_window].  The script lists, per attempt,
    how long the POST took and what came back; [sleeps] counts the calls
    of [time.sleep(1)].  [None] when the script ends before the loop
    does. *)
Fixpoint open_window (script : list (nat * open_reply)) (start_at now : Z)
    (sleeps : nat) : option ((exn + string) * Z * nat) :=
  match script with
  | [] => None
  | (took, r) :: rest =>
    let now := now + Z.of_nat took in
    match open_attempt r with
    | inr url => Some (inr url, now, sleeps)
    | inl e =>
      if contains busy_message (str e) then
        if 300 * 1000 <? now - start_at then Some (inl e, now, sleeps)
        else open_window rest start_at (now + 1 * 1000) (S sleeps)
      else Some (inl e, now, sleeps)
    end
  end.

(** ** Jobs running together *)

Record system := mkSystem {
  glob : global;
  jobs : list pc;
  trace : list event
}.

Inductive action :=
| Spawn (image_ref_path : string)   (* a request enters jimeng_expand *)
| Resume (j : nat) (r : resume)     (* the event loop resumes job j *)
| Tick (ms : nat)                   (* time passes *)
| Refill (w : nat).                 (* the bucket of object w refills by one *)

Definition sys_step (a : action) (s : system) : option system :=
  match a with
  | Spawn path =>
    '(p, g, evs) ← acquire_turn path (clock (glob s)) (glob s);
    Some (mkSystem g (jobs s ++ [p]) (trace s ++ evs))
  | Resume j r =>
    p ← jobs s !! j;
    '(p', g, evs) ← step r p (glob s);
    Some (mkSystem g (<[j := p']> (jobs s)) (trace s ++ evs))
  | Tick ms =>
    Some (mkSystem (set_clock (clock (glob s) + Z.of_nat ms) (glob s)) (jobs s) (trace s))
  | Refill w =>
    Some (mkSystem
            (set_heap (alter (λ o, with_bucket (refill (token_bucket o)) o) w (heap (glob s)))
                      (glob s))
            (jobs s) (trace s))
  end.

Fixpoint run (acts : list action) (s : system) : option system :=
  match acts with
  | [] => Some s
  | a :: rest => s' ← sys_step a s; run rest s'
  end.

(** A job followed on its own: between two of its turns the other jobs
    may have changed the shared state in any way, so every turn starts
    from an arbitrary [g]. *)
Inductive job_run : pc → list event → pc → Prop :=
| job_run_here p : job_run p [] p
| job_run_turn p r g p' g' evs evs' p'' :
    step r p g = Some (p', g', evs) →
    job_run p' evs' p'' →
    job_run p (evs ++ evs') p''.

(** The acquisition loop of one job with nothing else running: every
    sleep ends [lag] milliseconds after it was due. *)
Fixpoint sleep_loop (fuel : nat) (lag : nat → nat) (p : pc) (g : global)
  : option (pc * global * list event) :=
  match p with
  | PSleep _ _ wake_at =>
    match fuel with
    | O => None
    | S fuel' =>
      '(p', g', evs) ← step Wake p (set_clock (wake_at + Z.of_nat (lag fuel')) g);
      '(p'', g'', evs') ← sleep_loop fuel' lag p' g';
      Some (p'', g'', evs ++ evs')
    end
  | _ => Some (p, g, [])
  end.

Definition acquire (fuel : nat) (lag : nat → nat) (path : string) (g : global)
  : option (pc * global * list event) :=
  '(p, g', evs) ← acquire_turn path (clock g) g;
  '(p', g'', evs') ← sleep_loop fuel lag p g';
  Some (p', g'', evs ++ evs').

(** Requests arriving one after the other, each taken up to its first
    suspension. *)
Fixpoint dispatch (paths : list string) (g : global)
  : option (list pc * global * list event) :=
  match paths with
  | [] => Some ([], g, [])
  | path :: rest =>
    '(p, g1, evs) ← acquire_turn path (clock g) g;
    '(ps, g2, evs') ← dispatch rest g1;
    Some (p :: ps, g2, evs ++ evs')
  end.

(** ** Reading a state or a trace *)

Definition is_release (e : event) : bool :=
  match e with EvRelease _ => true | _ => false end.
Definition is_alert (e : event) : bool :=
  match e with EvAlert _ => true | _ => false end.

Definition releases (evs : list event) : list event := filter is_release evs.
Definition alerts (evs : list event) : list event := filter is_alert evs.

(** The windows selected, in order. *)
Definition selections (evs : list event) : list nat :=
  omap (λ e, match e with EvSelect w => Some w | _ => None end) evs.

(** How often [e] occurs in [evs]. *)
Definition occurrences (e : event) (evs : list event) : nat :=
  length (filter (λ e', e' = e) evs).

(** The job holds a token (it came out of the acquisition loop with a
    window). *)
Definition acquired (p : pc) : Prop :=
  match p with
  | PConnect _ | PNewPage _ => True
  | _ => False
  end.

(** The job is inside the [try] of lines 306-407 and its token is still
    to be released. *)
Definition in_try (p : pc) : option locals :=
  match p with
  | PNewPage l | PCredit l | PInteract l | PHandlerClose l | PPainting l => Some l
  | _ => None
  end.

(** The releases the job still owes. *)
Definition owed (p : pc) : list event :=
  match in_try p with
  | Some l => [EvRelease (window_ l)]
  | None => []
  end.

(** Some concrete states used below. *)
Definition window_028 : window :=
  mkWindow "即梦028" "id-028" "http://127.0.0.1:9221" (mkBucket 4 4) None.
Definition window_023 : window :=
  mkWindow "即梦023" "id-023" "http://127.0.0.1:9222" (mkBucket 4 4) None.

Definition two_windows (machine : string) : global :=
  mkGlobal (<[1%nat := window_023]> (<[0%nat := window_028]> ∅)) [0%nat; 1%nat] 0 0 machine.

Definition one_window (machine : string) : global :=
  mkGlobal (<[0%nat := window_028]> ∅) [0%nat] 0 0 machine.

Definition no_window (machine : string) : global :=
  mkGlobal (<[0%nat := window_028]> ∅) [] 1 0 machine.

(** ** Notions used in the statements, and more concrete states *)

(** The shape of every turn: the pool is kept or filtered by one name,
    the heap changes by an [alter] or an overwrite of a live object,
    which never touches a name. *)
Definition same_names (g g' : global) : Prop :=
  ∀ a, name_of g' a = name_of g a.

Definition pool_kept_or_filtered (g g' : global) : Prop :=
  windows g' = windows g
  ∨ ∃ n, windows g' = filter (λ a, name_of g a ≠ Some n) (windows g).

(** How a finished (or finishing) job ends. *)
Definition result (p : pc) : option outcome :=
  match p with
  | PDone o | PFinalClose _ o => Some o
  | _ => None
  end.

(** The outcomes [jimeng_expand] can really have: it never returns an
    empty list, and the errors it raises carry one of its own codes. *)
Definition genuine (o : outcome) : Prop :=
  match o with
  | Return images_url => images_url ≠ []
  | Raise (BizException c _) => c ∈ [1003; 1004; 1005; 1006; 1100; 1101]
  | Raise _ => True
  end.

(** The job has left the acquisition loop and the lazy connection. *)
Definition past_connect (p : pc) : Prop :=
  match p with
  | PSleep _ _ _ | PConnect _ => False
  | _ => True
  end.

(** What a turn inside the [try] guarantees. *)
Record turn_ok (l : locals) (g : global) (p : pc) (g' : global) (evs : list event) := {
  turn_pool : pool_kept_or_filtered g g';
  turn_names : same_names g g';
  turn_machine : C_CUSTOM_KEY_MACHINE g' = C_CUSTOM_KEY_MACHINE g;
  turn_select : ∀ w, EvSelect w ∉ evs;
  turn_release : releases evs ++ owed p = [EvRelease (window_ l)];
  turn_locals : ∀ l', in_try p = Some l' → l' = l;
  turn_past : past_connect p;
  turn_result : ∀ o, result p = Some o → genuine o
}.

(** A job inside the [try] always has a next turn, and it is at most
    five turns away from its end. *)
Definition turns_left (p : pc) : nat :=
  match p with
  | PNewPage _ => 5
  | PCredit _ => 4
  | PInteract _ => 3
  | PHandlerClose _ | PPainting _ => 2
  | PFinalClose _ _ => 1
  | _ => 0
  end.

Definition unset : string := EmptyString.

Definition idle (g : global) : system := mkSystem g [] [].

Definition three_requests_connect : list action :=
  [Spawn "a.png"; Spawn "b.png"; Spawn "c.png";
   Resume 0 (Connected (inr 11%nat)); Resume 1 (Connected (inr 12%nat));
   Resume 2 (Connected (inr 13%nat))].

Definition low_credit : http_reply credit_body :=
  Reply 200 (inr (mkCredit (Some "0") (Some 4) None (Some 10))).

Definition evict_028_then_serve : list action :=
  [Spawn "a.png"; Resume 0 (Connected (inr 11%nat)); Resume 0 (PageOpened None);
   Resume 0 (CreditResponse low_credit FileMissing)].

(** The state a schedule leads to (the starting state if the schedule
    cannot be run). *)
Definition after (acts : list action) (s : system) : system :=
  default s (run acts s).

(** The job's response once [jimeng_expand] has ended with [o]; a job
    suspended at the last [page.close()] ends with the same [o]. *)
Definition ends_with (p : pc) (o : outcome) : Prop :=
  ∃ l, p = PFinalClose l o ∨ p = PDone o.

Definition dev_job : list action :=
  [Spawn "test.png"; Resume 0 (Connected (inr 11%nat)); Resume 0 (PageOpened None);
   Resume 0 (CreditResponse low_credit FileMissing); Resume 0 (PageClosed None)].

Definition job_on_028 : locals := mkLocals "a.png" 0 "即梦028".

Definition timeout_on_028 : list action :=
  [Spawn "a.png"; Resume 0 (Connected (inr 11%nat)); Resume 0 (PageOpened None);
   Resume 0 (CreditResponse (Reply 200 (inr (mkCredit (Some "0") (Some 80) None None)))
                            (FileImage 1080 1920));
   Resume 0 (Interacted InteractTimeout)].

Definition rate_limited : paint_body := mkPaint (Some "1") (Some "api rate limit") [].

Definition credit_ok : http_reply credit_body :=
  Reply 200 (inr (mkCredit (Some "0") (Some 80) None None)).

Definition one_image : paint_body :=
  mkPaint (Some "0") None [ItemObj []; ItemObj [ImageObj (Some "https://p.example/1.png")]].

Definition saved (index : nat) (url : option string) : foreign + string :=
  match url with
  | None => inl (Failure "Invalid URL")
  | Some _ => inr "expand_img/r_0.png"
  end.

Definition timed_out : pc := PDone (Raise (Exception "get token bucket timeout")).

(** No window of the pool has a token to give. *)
Definition saturated (g : global) : Prop :=
  ∀ w, w ∈ windows g → ∃ o, heap g !! w = Some o ∧ available (token_bucket o) ≤ 0.

(** What a refused job leaves behind: the selection and the sleep. *)
Definition refusals (ws : list nat) : list event :=
  ws ≫= λ w, [EvSelect w; EvSleep (5 * 1000)].

Definition window_busy : window :=
  mkWindow "即梦022" "id-022" "http://127.0.0.1:9223" (mkBucket 4 0) None.

Definition busy_pool : global :=
  mkGlobal (<[2%nat := window_busy]> ∅) [2%nat] 0 0 unset.

(** How many of the [M] cursor values from [c] on fall on index [i] of a
    pool of size [n]. *)
Fixpoint hits (n i c M : nat) : nat :=
  match M with
  | O => 0
  | S M' => (if decide (c `mod` n = i) then 1 else 0) + hits n i (S c) M'
  end%nat.

Definition five_requests : list string := ["1.png"; "2.png"; "3.png"; "4.png"; "5.png"].

Definition full_job : list action :=
  [Spawn "a.png"; Resume 0 (Connected (inr 11%nat)); Resume 0 (PageOpened None);
   Resume 0 (CreditResponse credit_ok (FileImage 1080 1920));
   Resume 0 (Interacted InteractOk);
   Resume 0 (PaintingResponse (Reply 200 (inr one_image)));
   Resume 0 (PageClosed None)].

(** The attempt failed with the "browser is closing, retry shortly"
    message. *)
Definition busy (r : open_reply) : Prop :=
  ∃ e, open_attempt r = inl e ∧ contains busy_message (str e) = true.

Definition closing : open_reply :=
  OpenBody "{'success': false, 'msg': '浏览器正在关闭中，请稍后操作'}" false None.

Definition not_found : open_reply :=
  OpenBody "{'success': false, 'msg': 'window not found'}" false None.

(** ** Further notions: what ends in an eviction, who holds a token *)

(** The three answers on which the code rewrites [windows]: a plain
    credit response below 15 (line 324), a timeout of the page
    interaction (line 368), a painting response with [ret] "1018"
    (line 384). *)
Definition evicting (p : pc) (r : resume) : Prop :=
  match p, r with
  | PCredit _, CreditResponse (Reply status (inr body)) _ =>
    status = 200 ∧ c_ret body = Some "0" ∧ total_credit body < 15
  | PInteract _, Interacted InteractTimeout => True
  | PPainting _, PaintingResponse (Reply _ (inr body)) => p_ret body = Some "1018"
  | _, _ => False
  end.

(** The job's window and its name, wherever the job is past the
    acquisition. *)
Definition locals_of (p : pc) : option locals :=
  match p with
  | PConnect l | PNewPage l | PCredit l | PInteract l | PHandlerClose l
  | PPainting l | PFinalClose l _ => Some l
  | _ => None
  end.

Definition banned_reply : paint_body := mkPaint (Some "1018") None [].

Definition server_error : paint_body := mkPaint (Some "5000") (Some "internal error") [].

Definition is_sleep (e : event) : bool :=
  match e with EvSleep _ => true | _ => false end.

Definition sleeps (evs : list event) : list event := filter is_sleep evs.

Definition provisions (evs : list event) : list nat :=
  omap (λ e, match e with EvProvision w => Some w | _ => None end) evs.

(** 1 for a job that has been granted a token and has not yet given it
    back, 0 otherwise. *)
Definition holds (p : pc) : nat :=
  match p with
  | PConnect _ | PNewPage _ | PCredit _ | PInteract _ | PHandlerClose _
  | PPainting _ => 1
  | _ => 0
  end.

Definition holders (ps : list pc) : nat := sum_list_with holds ps.

(** Every window of the pool is a live object. *)
Definition well_formed (g : global) : Prop :=
  ∀ w, w ∈ windows g → is_Some (heap g !! w).

(** The window at [w] has its browser connection. *)
Definition connected (g : global) (w : nat) : Prop :=
  ∃ o h, heap g !! w = Some o ∧ instance o = Some h.

(** What a turn inside the [try] leaves alone. *)
Record turn_quiet (g : global) (g' : global) (evs : list event) := {
  quiet_index : window_index g' = window_index g;
  quiet_clock : clock g' = clock g;
  quiet_provision : provisions evs = [];
  quiet_sleep : sleeps evs = [];
  quiet_select : selections evs = [];
  quiet_dev : C_CUSTOM_KEY_MACHINE g = "MY_DEV" → alerts evs = [];
  quiet_instance : ∀ w, instance <$> heap g' !! w = instance <$> heap g !! w
}.

Definition two_spawns : list action := [Spawn "b.png"; Spawn "c.png"].

Definition two_more : list action :=
  [Spawn "b.png"; Spawn "c.png"; Resume 2 (PageOpened None)].

(** What one action of the system, or a run of them, accounts for;
    [evs] are the events it adds to the trace. *)
Record account (s s' : system) (evs : list event) := {
  acc_trace : trace s' = trace s ++ evs;
  acc_index :
    window_index (glob s') = (window_index (glob s) + length (selections evs))%nat;
  acc_tokens :
    (length (releases evs) + length (sleeps evs) + holders (jobs s')
     ≤ length (selections evs) + holders (jobs s))%nat;
  acc_machine : C_CUSTOM_KEY_MACHINE (glob s') = C_CUSTOM_KEY_MACHINE (glob s);
  acc_dev : C_CUSTOM_KEY_MACHINE (glob s) = "MY_DEV" → alerts evs = [];
  acc_connected :
    ∀ w, connected (glob s) w → connected (glob s') w ∧ w ∉ provisions evs;
  acc_live : ∀ a, is_Some (heap (glob s) !! a) → is_Some (heap (glob s') !! a);
  acc_pool : windows (glob s') ⊆ windows (glob s);
  acc_clock : clock (glob s) ≤ clock (glob s')
}.

(** ** Further notions: responses, items, scripts *)



(** The time a series of failed attempts takes, each with its second of
    sleep. *)
Definition spent (attempts : list (nat * open_reply)) : Z :=
  foldr (λ tr t, Z.of_nat tr.1 + 1 * 1000 + t) 0 attempts.

Definition past_sleep (p : pc) : Prop :=
  match p with
  | PSleep _ _ _ => False
  | _ => True
  end.

Definition opened : open_reply := OpenBody "{'success': true}" true (Some "127.0.0.1:9221").


(** ** Startup: [list_window], [close_window], [call_main] *)

(** A dict of [windows] before the pool serves: the module creates it
    with the key [name] alone, [call_main] adds the other keys. *)
Record raw_window := mkRaw {
  raw_name : string;
  raw_window_id : option string;
  raw_debug_url : option string;
  raw_token_bucket : option TokenBucket;
  raw_instance : option (option nat)
}.

(** The answer to the POST of [list_window]; an entry of the list may
    lack its [id] or its [name]. *)
Inductive list_reply :=
| ListRaise (e : foreign)
| ListBody (text : string) (success : bool)
           (entries : list (option string * option string)).

(** Lines 268-274. *)
Fixpoint list_results (entries : list (option string * option string))
  : exn + list (string * string) :=
  match entries with
  | [] => inr []
  | (None, _) :: _ => inl (KeyError "id")
  | (Some _, None) :: _ => inl (KeyError "name")
  | (Some id, Some nm) :: rest =>
    match list_results rest with
    | inl e => inl e
    | inr results => inr ((id, nm) :: results)
    end
  end.

Definition list_window (r : list_reply) : exn + list (string * string) :=
  match r with
  | ListRaise e => inl (thrown e)
  | ListBody text success entries =>
    if negb success then inl (Exception ("list_window error, err=" +:+ text))
    else list_results entries
  end.

Inductive close_reply :=
| CloseRaise (e : foreign)
| CloseBody (text : string) (success : bool).

(** [close_window]: [None] when it returns. *)
Definition close_window (r : close_reply) : option exn :=
  match r with
  | CloseRaise e => Some (thrown e)
  | CloseBody text success =>
    if negb success then Some (Exception ("close window error, err=" +:+ text))
    else None
  end.

(** Lines 450-452: [window_map[window['name']] = window], in the order
    of [windows]. *)
Fixpoint register (h : gmap nat raw_window) (ws : list nat) (window_map : gmap string nat)
  : gmap string nat :=
  match ws with
  | [] => window_map
  | a :: rest =>
    register h rest
      match h !! a with
      | Some o => <[raw_name o := a]> window_map
      | None => window_map
      end
  end.

(** Lines 454-459, for one listed window; [fresh] is what
    [rates.TokenBucket(4, 4)] builds. *)
Definition adopt (fresh : TokenBucket) (window_map : gmap string nat)
    (h : gmap nat raw_window) (w : string * string) : gmap nat raw_window :=
  match window_map !! w.2 with
  | Some a =>
    alter (λ o, mkRaw (raw_name o) (Some w.1) (Some EmptyString) (Some fresh) (Some None))
          a h
  | None => h
  end.

Definition set_url (url : string) (o : raw_window) : raw_window :=
  mkRaw (raw_name o) (raw_window_id o) (Some url) (raw_token_bucket o) (raw_instance o).

(** Lines 460-463: close and reopen every window of the pool.  The
    result is the heap reached and the exception that ended the loop, if
    one did; [None] when a script of [opens] runs out. *)
Fixpoint open_all (closes : string → close_reply)
    (opens : string → list (nat * open_reply))
    (ws : list nat) (h : gmap nat raw_window)
  : option (gmap nat raw_window * option exn) :=
  match ws with
  | [] => Some (h, None)
  | a :: rest =>
    o ← h !! a;
    match raw_window_id o with
    | None => Some (h, Some (KeyError "window_id"))
    | Some id =>
      match close_window (closes id) with
      | Some e => Some (h, Some e)
      | None =>
        r ← open_window (opens id) 0 0 0;
        match r.1.1 with
        | inl e => Some (h, Some e)
        | inr url => open_all closes opens rest (<[a := set_url url o]> h)
        end
      end
    end
  end.

(** [call_main] up to [time.sleep(10)] and the start of the server. *)
Definition call_main (fresh : TokenBucket) (listing : list_reply)
    (closes : string → close_reply) (opens : string → list (nat * open_reply))
    (ws : list nat) (h : gmap nat raw_window)
  : option (gmap nat raw_window * option exn) :=
  let window_map := register h ws ∅ in
  match list_window listing with
  | inl e => Some (h, Some e)
  | inr results => open_all closes opens ws (foldl (adopt fresh window_map) h results)
  end.

(** The dict once it has all its keys. *)
Definition ready (o : raw_window) : option window :=
  id ← raw_window_id o;
  url ← raw_debug_url o;
  b ← raw_token_bucket o;
  i ← raw_instance o;
  Some (mkWindow (raw_name o) id url b i).

(** Everything of a dict but its [debug_url]. *)
Definition but_url (o : raw_window)
  : string * option string * option TokenBucket * option (option nat) :=
  (raw_name o, raw_window_id o, raw_token_bucket o, raw_instance o).

(** The window has been reopened: its [debug_url] is what
    [open_window] returned for its [window_id]. *)
Definition reopened (opens : string → list (nat * open_reply))
    (h : gmap nat raw_window) (a : nat) : Prop :=
  ∃ o id url t k,
    h !! a = Some o ∧ raw_window_id o = Some id ∧ raw_debug_url o = Some url
    ∧ open_window (opens id) 0 0 0 = Some (inr url, t, k).

(** The pool as the module declares it. *)
Definition declared : gmap nat raw_window :=
  <[2%nat := mkRaw "即梦022" None None None None]>
    (<[1%nat := mkRaw "即梦023" None None None None]>
       (<[0%nat := mkRaw "即梦028" None None None None]> ∅)).

Definition all_listed : list_reply :=
  ListBody "{'success': true}" true
    [(Some "id-022", Some "即梦022"); (Some "id-x", Some "other");
     (Some "id-028", Some "即梦028"); (Some "id-023", Some "即梦023")].


Definition closes_fine (id : string) : close_reply := CloseBody "{'success': true}" true.

Definition opens_fine (id : string) : list (nat * open_reply) :=
  [(40%nat, closing); (900%nat, OpenBody "{'success': true}" true (Some ("127.0.0.1/" +:+ id)))].

(** The alerts of a turn, set against the way the job ends: none, or
    one that carries the message of the error raised. *)
Definition alert_matches (evs : list event) (end_ : option outcome) : Prop :=
  alerts evs = []
  ∨ ∃ c m, alerts evs = [EvAlert m] ∧ end_ = Some (Raise (BizException c m))
           ∧ c ∈ [1006; 1100; 1101].

(** Two requests on the only window; the first connects and is evicted
    for lack of credit, then the connection of the second fails. *)
Definition evicted_then_refused : list action :=
  [Spawn "a.png"; Spawn "b.png"; Resume 0 (Connected (inr 11%nat));
   Resume 0 (PageOpened None); Resume 0 (CreditResponse low_credit FileMissing);
   Resume 0 (PageClosed None);
   Resume 1 (Connected (inl (Failure "connect ECONNREFUSED")))].

(** ** The windows handed to jobs *)

(** The window a job comes out of the acquisition loop with. *)
Definition window_given (p : pc) : option nat :=
  match p with
  | PConnect l | PNewPage l => Some (window_ l)
  | _ => None
  end.

(** The window that action [a] hands to a job: [a] is a turn of the
    acquisition loop (a request entering, or a sleeping job resumed)
    and the turn ends in a grant. *)
Definition grant_of (a : action) (s s' : system) : option nat :=
  match a with
  | Spawn _ => last (jobs s') ≫= window_given
  | Resume j Wake =>
    match jobs s !! j with
    | Some (PSleep _ _ _) => jobs s' !! j ≫= window_given
    | _ => None
    end
  | _ => None
  end.

(** The windows handed to jobs along a run, in order. *)
Fixpoint grants (acts : list action) (s : system) : list nat :=
  match acts with
  | [] => []
  | a :: rest =>
    match sys_step a s with
    | Some s' => option_list (grant_of a s s') ++ grants rest s'
    | None => []
    end
  end.

(** How often [w] occurs in [ws]. *)
Definition times (w : nat) (ws : list nat) : nat :=
  length (filter (λ x, x = w) ws).

(** Nine requests on two windows of four tokens; window 0 gets a token
    back before the ninth. *)
Definition nine_requests : list action :=
  [Spawn "1.png"; Spawn "2.png"; Spawn "3.png"; Spawn "4.png"; Spawn "5.png";
   Spawn "6.png"; Spawn "7.png"; Spawn "8.png"; Refill 0; Spawn "9.png"].

(** * Properties *)

(** ** What one turn does to the shared state *)

Lemma finally_spec l page o g :
  ∃ p, finally_ l page o g = (p, release_bucket (window_ l) g, [EvRelease (window_ l)])
       ∧ (p = PFinalClose l o ∨ p = PDone o).
Proof.
  unfold finally_.
  destruct (page && bool_decide (C_CUSTOM_KEY_MACHINE g ≠ "MY_DEV1")); eauto.
Qed.

Lemma same_names_refl g : same_names g g.
Proof. done. Qed.

Lemma same_names_trans g1 g2 g3 :
  same_names g1 g2 → same_names g2 g3 → same_names g1 g3.
Proof. intros H1 H2 a. by rewrite H2, H1. Qed.

Lemma same_names_alter f w g :
  (∀ o, name (f o) = name o) →
  same_names g (set_heap (alter f w (heap g)) g).
Proof.
  intros Hf a. unfold name_of. simpl. rewrite lookup_alter.
  case_decide; [subst|done]. destruct (heap g !! a); simpl; [by rewrite Hf|done].
Qed.

Lemma same_names_release w g : same_names g (release_bucket w g).
Proof. by apply same_names_alter. Qed.

Lemma same_names_evict n g : same_names g (evict n g).
Proof. done. Qed.

Lemma acquire_turn_shape path start g p g' evs :
  acquire_turn path start g = Some (p, g', evs) →
  windows g' = windows g ∧ same_names g g'
  ∧ C_CUSTOM_KEY_MACHINE g' = C_CUSTOM_KEY_MACHINE g
  ∧ releases evs = [] ∧ alerts evs = []
  ∧ ∀ w, EvSelect w ∈ evs → w ∈ windows g.
Proof.
  unfold acquire_turn. intros H.
  case_match; [simplify_eq; split_and!; try done; intros w Hw; by apply elem_of_nil in Hw|].
  destruct (windows g) as [|a ws] eqn:Hws;
    [simplify_eq; split_and!; try done; intros w Hw; by apply elem_of_nil in Hw|].
  destruct ((a :: ws) !! (window_index g `mod` length (a :: ws))%nat) as [w|] eqn:Hw;
    simpl in H; [|done].
  destruct (heap g !! w) as [o|] eqn:Ho; simpl in H; [|done].
  assert (Hin : w ∈ a :: ws) by (by eapply list_elem_of_lookup_2).
  assert (Hsel : ∀ evs0 : list event,
             (∀ w', EvSelect w' ∈ evs0 → w' = w) →
             ∀ w', EvSelect w' ∈ evs0 → w' ∈ a :: ws).
  { intros evs0 Hall w' Hw'. by rewrite (Hall w' Hw'). }
  destruct (get_token (token_bucket o)) as [ok b].
  destruct ok; simpl in H.
  - assert (Hn : same_names g
       (set_heap (<[w:=with_bucket b o]> (heap g)) (set_window_index (S (window_index g)) g))).
    { intros x. unfold name_of. simpl. rewrite lookup_insert.
      case_decide; [subst; by rewrite Ho|done]. }
    destruct (instance o); simplify_eq; simpl; rewrite ?Hws;
      (split_and!; [done|done|done|done|done|]);
      apply Hsel; intros w' Hw'; rewrite ?elem_of_cons, elem_of_nil in Hw'; intuition congruence.
  - simplify_eq; simpl; rewrite ?Hws. split_and!; try done.
    apply Hsel; intros w' Hw'; rewrite ?elem_of_cons, elem_of_nil in Hw'; intuition congruence.
Qed.

Lemma same_names_release_evict w n g :
  same_names g (release_bucket w (evict n g)).
Proof.
  apply (same_names_trans _ (evict n g)); [apply same_names_evict|apply same_names_release].
Qed.

Create HintDb turn.
#[local] Hint Resolve same_names_refl same_names_release same_names_evict
  same_names_release_evict : turn.
#[local] Hint Extern 1 (pool_kept_or_filtered _ _) => (by left) : turn.
#[local] Hint Extern 2 (pool_kept_or_filtered _ _) => (right; by eexists) : turn.

Ltac no_select :=
  let w := fresh "w" in let H := fresh "H" in
  intros w H; simpl in H;
  repeat (apply elem_of_cons in H as [H|H]; [discriminate H|]);
  by apply elem_of_nil in H.

Lemma genuine_thrown e : genuine (Raise (thrown e)).
Proof. by destruct e. Qed.

Ltac genuine_done :=
  simpl;
  first [ done
        | apply genuine_thrown
        | repeat first [apply list_elem_of_here | apply list_elem_of_further] ].

Ltac turn_done :=
  split; simpl;
  [ auto with turn | auto with turn | done | no_select | done
  | by intros ? [= <-] | done | (intros ? [= <-]; genuine_done) || done ].

Lemma finally_turn_ok l page e g p g' evs :
  finally_ l page (Raise (thrown e)) g = (p, g', evs) → turn_ok l g p g' evs.
Proof.
  unfold finally_. intros H. case_match; simplify_eq; turn_done.
Qed.

Lemma credit_turn_ok l r f g p g' evs :
  credit_turn l r f g = (p, g', evs) → turn_ok l g p g' evs.
Proof.
  unfold credit_turn, finally_, sendAlert_unless_dev. intros H.
  repeat case_match; simplify_eq; turn_done.
Qed.

Lemma painting_turn_ok l r g p g' evs :
  painting_turn l r g = (p, g', evs) → turn_ok l g p g' evs.
Proof.
  unfold painting_turn, painting_error, finally_. intros H.
  repeat case_match; simplify_eq; turn_done.
Qed.

Lemma step_turn_ok r p g p' g' evs l :
  in_try p = Some l →
  step r p g = Some (p', g', evs) →
  turn_ok l g p' g' evs.
Proof.
  intros Hl H. destruct p; simplify_eq/=.
  - destruct r as [| | [e|] | | | |]; simplify_eq/=.
    + by eapply finally_turn_ok.
    + turn_done.
  - destruct r; simplify_eq/=. by eapply credit_turn_ok.
  - destruct r as [| | | |[| |e]| |]; simplify_eq/=.
    + turn_done.
    + turn_done.
    + by eapply finally_turn_ok.
  - destruct r as [| | | | |[e|]|]; simplify_eq/=.
    + by eapply finally_turn_ok.
    + unfold finally_, sendAlert_unless_dev in H.
      repeat case_match; simplify_eq; turn_done.
  - destruct r; simplify_eq/=. by eapply painting_turn_ok.
Qed.

Lemma step_shape r p g p' g' evs :
  step r p g = Some (p', g', evs) →
  pool_kept_or_filtered g g' ∧ same_names g g'
  ∧ C_CUSTOM_KEY_MACHINE g' = C_CUSTOM_KEY_MACHINE g
  ∧ ∀ w, EvSelect w ∈ evs → w ∈ windows g.
Proof.
  intros H. destruct (in_try p) as [l|] eqn:Hl.
  { destruct (step_turn_ok _ _ _ _ _ _ _ Hl H) as [Hp Hn Hm Hs _ _ _].
    split_and!; try done. intros w Hw. by destruct (Hs w). }
  destruct p; simplify_eq/=.
  - destruct r; simplify_eq/=. case_match; [|done].
    apply acquire_turn_shape in H as (Hw & Hn & Hm & _ & _ & Hs).
    split_and!; try done. by left.
  - destruct r as [|[e|h]| | | | |]; simplify_eq/=.
    + split_and!; [by left|done|done|]. intros w Hw. by apply elem_of_nil in Hw.
    + split_and!; [by left| |done|].
      * by apply same_names_alter.
      * intros w Hw. by apply elem_of_nil in Hw.
  - destruct r; simplify_eq/=.
    split_and!; [by left|done|done|]. intros w Hw. by apply elem_of_nil in Hw.
Qed.

Lemma pool_kept_or_filtered_sublist g g' :
  pool_kept_or_filtered g g' → windows g' `sublist_of` windows g.
Proof. intros [->|[n ->]]; [done|apply sublist_filter]. Qed.

Lemma sys_step_shape a s s' :
  sys_step a s = Some s' →
  pool_kept_or_filtered (glob s) (glob s') ∧ same_names (glob s) (glob s')
  ∧ ∃ evs, trace s' = trace s ++ evs
           ∧ ∀ w, EvSelect w ∈ evs → w ∈ windows (glob s).
Proof.
  destruct a as [path|j r|ms|w]; simpl; intros H.
  - destruct (acquire_turn path (clock (glob s)) (glob s)) as [[[p g] evs]|] eqn:Ha;
      simplify_eq/=.
    apply acquire_turn_shape in Ha as (Hw & Hn & _ & _ & _ & Hs).
    split_and!; [by left|done|by exists evs].
  - destruct (jobs s !! j) as [p|]; simplify_eq/=.
    destruct (step r p (glob s)) as [[[p' g] evs]|] eqn:Hst; simplify_eq/=.
    apply step_shape in Hst as (Hw & Hn & _ & Hs).
    split_and!; [done|done|by exists evs].
  - simplify_eq/=. split_and!; [by left|done|].
    exists []. rewrite app_nil_r. split; [done|]. intros w Hw. by apply elem_of_nil in Hw.
  - simplify_eq/=. split_and!; [by left| |].
    + by apply same_names_alter.
    + exists []. rewrite app_nil_r. split; [done|]. intros w' Hw. by apply elem_of_nil in Hw.
Qed.

Lemma run_shape acts s s' :
  run acts s = Some s' →
  windows (glob s') `sublist_of` windows (glob s)
  ∧ same_names (glob s) (glob s')
  ∧ ∃ evs, trace s' = trace s ++ evs
           ∧ ∀ w, EvSelect w ∈ evs → w ∈ windows (glob s).
Proof.
  revert s. induction acts as [|a acts IH]; intros s H; simplify_eq/=.
  { split_and!; [done|done|]. exists []. rewrite app_nil_r. split; [done|].
    intros w Hw. by apply elem_of_nil in Hw. }
  destruct (sys_step a s) as [s1|] eqn:Ha; simplify_eq/=.
  apply sys_step_shape in Ha as (Hp & Hn & evs1 & Ht1 & Hs1).
  apply pool_kept_or_filtered_sublist in Hp.
  destruct (IH _ H) as (Hp' & Hn' & evs2 & Ht2 & Hs2).
  split_and!.
  - by etrans.
  - by eapply same_names_trans.
  - exists (evs1 ++ evs2). rewrite Ht2, Ht1, (assoc_L (++)). split; [done|].
    intros w [Hw|Hw]%elem_of_app; [by apply Hs1|].
    eapply sublist_subseteq; [exact Hp|]. by apply Hs2.
Qed.

(** The releases of a job followed on its own. *)
Lemma job_run_releases p evs p' l :
  in_try p = Some l →
  job_run p evs p' →
  releases evs ++ owed p' = [EvRelease (window_ l)].
Proof.
  intros Hl Hrun. revert l Hl.
  induction Hrun as [p|p r g p' g' evs evs' p'' Hst Hrun IH]; intros l Hl.
  { unfold owed. by rewrite Hl. }
  destruct (step_turn_ok _ _ _ _ _ _ _ Hl Hst) as [_ _ _ _ Hrel Hloc Hpast _].
  unfold releases in *. rewrite filter_app.
  destruct (in_try p') as [l'|] eqn:Hl'.
  - rewrite (Hloc l' eq_refl) in *.
    unfold owed in Hrel. rewrite Hl' in Hrel.
    destruct (filter is_release evs); [|by destruct l0].
    simpl. by apply IH.
  - unfold owed in Hrel. rewrite Hl', app_nil_r in Hrel. rewrite Hrel.
    assert (Hno : ∀ evs0 q, job_run p' evs0 q →
                   filter is_release evs0 = [] ∧ owed q = []).
    { clear -Hl' Hpast. intros evs0 q Hq.
      induction Hq as [q|q r g q' g' e1 e2 q'' Hst Hq IH].
      - unfold owed. by rewrite Hl'.
      - destruct q; simplify_eq/=; try done.
        destruct r; simplify_eq/=. by apply IH. }
    destruct (Hno _ _ Hrun) as [-> ->]. done.
Qed.

Lemma body_progress p :
  past_connect p → (∀ o, p ≠ PDone o) → ∃ r, ∀ g, is_Some (step r p g).
Proof.
  intros Hp Hd. destruct p; try done.
  - exists (PageOpened None). by eexists.
  - exists (CreditResponse (ReplyRaise Timeout) FileMissing). by eexists.
  - exists (Interacted InteractOk). by eexists.
  - exists (PageClosed (Some Timeout)). by eexists.
  - exists (PaintingResponse (ReplyRaise Timeout)). by eexists.
  - exists (PageClosed None). by eexists.
  - by destruct (Hd o).
Qed.

Lemma body_turns_decrease r p g p' g' evs :
  past_connect p → step r p g = Some (p', g', evs) →
  (turns_left p' < turns_left p)%nat.
Proof.
  intros Hp H. destruct p; try done; simpl in H.
  - destruct r as [| |[e|]| | | |]; simplify_eq/=; [|lia].
    unfold finally_ in H. simpl in H. simplify_eq/=. lia.
  - destruct r; simplify_eq/=.
    unfold credit_turn, finally_ in H. repeat case_match; simplify_eq/=; lia.
  - destruct r as [| | | |[| |e]| |]; simplify_eq/=; try lia.
    unfold finally_ in H. case_match; simplify_eq/=; lia.
  - destruct r as [| | | | |[e|]|]; simplify_eq/=;
      unfold finally_ in H; repeat case_match; simplify_eq/=; lia.
  - destruct r; simplify_eq/=.
    unfold painting_turn, painting_error, finally_ in H.
    repeat case_match; simplify_eq/=; lia.
  - destruct r; simplify_eq/=. lia.
Qed.

(** A request served from end to end: one selection, one connection,
    one release, the bucket back at 4 of 4, and a response of code 0
    with one image. *)
Example full_job_succeeds :
  let s' := after full_job (idle (two_windows unset)) in
  run full_job (idle (two_windows unset)) = Some s'
  ∧ jobs s' = [PDone (Return [Some "https://p.example/1.png"])]
  ∧ trace s' = [EvSelect 0%nat; EvProvision 0%nat; EvRelease 0%nat]
  ∧ token_bucket <$> heap (glob s') !! 0%nat = Some (mkBucket 4 4)
  ∧ process_img saved (Return [Some "https://p.example/1.png"])
    = resp_ok (mkPayload ["expand_img/r_0.png"]).
Proof. intros s'. split; [vm_compute; reflexivity|]. by vm_compute. Qed.

(** ** The token of a job whose browser connection fails *)

(** C1.  The claim: once [get_token] has granted a permit, [release] is
    called exactly once on every way out of the job.  The code breaks it
    on one way out: the lazy connection of line 297 sits between the
    acquisition and the [try], so when [connect_over_cdp] raises the job
    ends without any release and the permit is lost (4 permits before,
    3 after).  Inside the [try] the claim holds, see [job_run_releases]. *)
Theorem release_skipped_when_connection_fails :
  ∃ s' e,
    run [Spawn "test.png"; Resume 0 (Connected (inl (Failure "connect ECONNREFUSED")))]
        (idle (one_window unset)) = Some s'
    ∧ jobs s' = [PDone (Raise e)]
    ∧ occurrences (EvSelect 0%nat) (trace s') = 1%nat
    ∧ releases (trace s') = []
    ∧ token_bucket <$> heap (glob s') !! 0%nat = Some (mkBucket 4 3).
Proof.
  eexists _, _. split; [vm_compute; reflexivity|]. by vm_compute.
Qed.

(** ** An empty pool *)

(** C2.  The claim: with no window left, acquisition fails at once with
    a PoolExhausted error, not by crashing in some other way.  The code
    has no such error: [window_index % len(windows)] divides by zero, the
    job ends with [ZeroDivisionError], and [process_img] reports it under
    the catch-all code 1000, the code it also gives the acquisition
    timeout. *)
Theorem empty_pool_divides_by_zero path fetch (g : global) :
  windows g = [] →
  acquire_turn path (clock g) g = Some (PDone (Raise ZeroDivisionError), g, [])
  ∧ code (process_img fetch (Raise ZeroDivisionError)) = 1000
  ∧ code (process_img fetch (Raise (Exception "get token bucket timeout"))) = 1000.
Proof.
  intros Hw. unfold acquire_turn. rewrite Hw.
  replace (clock g - clock g) with 0 by lia. done.
Qed.

Lemma empty_pool_divides_by_zero_witness :
  acquire_turn "test.png" 0 (no_window unset)
  = Some (PDone (Raise ZeroDivisionError), no_window unset, []).
Proof.
  apply (empty_pool_divides_by_zero "test.png" (λ _ _, inl Timeout) (no_window unset)).
  reflexivity.
Defined.

(** ** Two jobs meeting an unconnected window *)

(** C9.  The claim: the browser connection of a window is made once,
    also when two jobs find [instance] absent at the same time.  The code
    tests [window['instance'] is None] and only assigns after two
    [await]s, with no guard in between: a request that lands on the
    window while an earlier one is still connecting sees [None] as well
    and connects again.  Here the first and the third of three requests
    land on window 0 of a pool of two; its connection is opened twice
    and the handle of the first is overwritten. *)
Theorem two_jobs_connect_twice :
  ∃ s',
    run three_requests_connect (idle (two_windows unset)) = Some s'
    ∧ occurrences (EvProvision 0%nat) (trace s') = 2%nat
    ∧ occurrences (EvProvision 1%nat) (trace s') = 1%nat
    ∧ instance <$> heap (glob s') !! 0%nat = Some (Some 13%nat).
Proof.
  eexists. split; [vm_compute; reflexivity|]. by vm_compute.
Qed.

(** ** The pool only shrinks *)

Lemma acquire_turn_returns_member path start g p g' evs l :
  acquire_turn path start g = Some (p, g', evs) →
  p = PConnect l ∨ p = PNewPage l →
  window_ l ∈ windows g ∧ name_of g' (window_ l) = Some (window_name l).
Proof.
  unfold acquire_turn. intros H Hp.
  case_match; [destruct Hp; simplify_eq|].
  destruct (windows g) as [|a ws] eqn:Hws; [destruct Hp; simplify_eq|].
  destruct ((a :: ws) !! (window_index g `mod` length (a :: ws))%nat) as [w|] eqn:Hw;
    simpl in H; [|done].
  destruct (heap g !! w) as [o|] eqn:Ho; simpl in H; [|done].
  apply list_elem_of_lookup_2 in Hw.
  destruct (get_token (token_bucket o)) as [[] b]; simpl in H;
    [|destruct Hp; simplify_eq].
  assert (window_ l = w ∧ window_name l = name o) as [-> ->]
    by (destruct (instance o), Hp; by simplify_eq).
  split; [done|].
  assert (heap g' = <[w:=with_bucket b o]> (heap g)) as Hh
    by (destruct (instance o); by simplify_eq).
  unfold name_of. by rewrite Hh, lookup_insert_eq.
Qed.

(** Every action of the system keeps the list [windows] or replaces it
    by one of its filterings; along any run the list is a sublist of
    what it was, so nothing is added back; a window that is out of the
    list is never selected again and no acquisition returns it
    ([acquire_turn] only returns members of the current list); and a
    job that is inside the [try] releases its token exactly once on its
    way out, whatever has happened to the list in the meantime.  A job
    that holds its token but is still at the connection of line 297 is
    outside the [try] and is not covered. *)
Theorem pool_only_shrinks :
  (∀ a s s', sys_step a s = Some s' → pool_kept_or_filtered (glob s) (glob s'))
  ∧ (∀ acts s s', run acts s = Some s' →
       windows (glob s') `sublist_of` windows (glob s)
       ∧ ∀ w evs, w ∉ windows (glob s) → trace s' = trace s ++ evs →
           (w ∉ windows (glob s')) ∧ (EvSelect w ∉ evs))
  ∧ (∀ path start g p g' evs l,
       acquire_turn path start g = Some (p, g', evs) →
       p = PConnect l ∨ p = PNewPage l → window_ l ∈ windows g)
  ∧ (∀ p l evs o, in_try p = Some l → job_run p evs (PDone o) →
       releases evs = [EvRelease (window_ l)]).
Proof.
  split_and!.
  - intros a s s' H. by apply sys_step_shape in H as (? & _).
  - intros acts s s' H. apply run_shape in H as (Hsub & _ & evs0 & Ht & Hs).
    split; [done|]. intros w evs Hw Hevs.
    rewrite Ht in Hevs. apply app_inv_head in Hevs as <-. split.
    + intros Hin. apply Hw. by eapply sublist_subseteq.
    + intros Hin. by apply Hw, Hs.
  - intros path start g p g' evs l H Hp.
    by destruct (acquire_turn_returns_member _ _ _ _ _ _ _ H Hp).
  - intros p l evs o Hl H.
    apply (job_run_releases _ _ _ _ Hl) in H. by rewrite app_nil_r in H.
Qed.

Lemma pool_only_shrinks_witness :
  let s1 := after evict_028_then_serve (idle (two_windows unset)) in
  let s2 := after [Spawn "b.png"; Spawn "c.png"; Resume 0 (PageClosed None)] s1 in
  windows (glob s1) = [1%nat]
  ∧ (0%nat ∉ windows (glob s2))
  ∧ (EvSelect 0%nat ∉ drop (length (trace s1)) (trace s2)).
Proof.
  intros s1 s2. split; [reflexivity|].
  destruct pool_only_shrinks as (_ & H & _).
  apply (H [Spawn "b.png"; Spawn "c.png"; Resume 0 (PageClosed None)] s1 s2).
  - vm_compute; reflexivity.
  - intros Hin. apply list_elem_of_singleton in Hin. discriminate Hin.
  - vm_compute; reflexivity.
Defined.

(** ** Eviction for lack of credit *)

(** C4, as stated, fails on the developer machine: the credit is below
    15, the window is evicted and the job fails with code 1100, but the
    guard [C_CUSTOM_KEY_MACHINE != 'MY_DEV'] skips [sendAlert], so no
    alert is emitted at all. *)
Lemma low_credit_on_dev_sends_no_alert :
  let s' := after dev_job (idle (one_window "MY_DEV")) in
  run dev_job (idle (one_window "MY_DEV")) = Some s'
  ∧ windows (glob s') = []
  ∧ jobs s' = [PDone (Raise (BizException 1100 (bracket "即梦028" "积分不足")))]
  ∧ length (alerts (trace s')) ≠ 1%nat.
Proof.
  intros s'. split; [vm_compute; reflexivity|]. split; [reflexivity|].
  split; [reflexivity|]. vm_compute. discriminate.
Qed.

(** C4, amended.  When the credit response is a plain success (status
    200, [ret] "0") and the credits add up to less than 15 (the job's
    [window_name] being the name of its [window], as it is from the
    acquisition on): every window of that name leaves [windows], the
    job's own window among them; no
    later run selects a window of that name; the alert is sent once,
    except on the machine [MY_DEV] where it is not sent; the token is
    released; and the job fails with [BizException(1100, "[name] 积分不足")],
    which [process_img] reports as code 1100. *)
Theorem low_credit_evicts l status body f fetch g p g' evs :
  status = 200 → c_ret body = Some "0" → total_credit body < 15 →
  name_of g (window_ l) = Some (window_name l) →
  credit_turn l (Reply status (inr body)) f g = (p, g', evs) →
  let message := bracket (window_name l) "积分不足" in
  windows g' = filter (λ a, name_of g a ≠ Some (window_name l)) (windows g)
  ∧ (window_ l ∉ windows g')
  ∧ (∀ acts s s' evs', glob s = g' → run acts s = Some s' →
       trace s' = trace s ++ evs' →
       ∀ a, EvSelect a ∈ evs' →
         a ≠ window_ l ∧ name_of (glob s') a ≠ Some (window_name l))
  ∧ alerts evs = (if decide (C_CUSTOM_KEY_MACHINE g = "MY_DEV") then [] else [EvAlert message])
  ∧ releases evs = [EvRelease (window_ l)]
  ∧ ends_with p (Raise (BizException 1100 message))
  ∧ code (process_img fetch (Raise (BizException 1100 message))) = 1100.
Proof.
  intros -> Hret Hlow Hname Hturn message.
  assert (Hg' : g' = release_bucket (window_ l) (evict (window_name l) g)
                ∧ evs = sendAlert_unless_dev message g ++ [EvRelease (window_ l)]
                ∧ ends_with p (Raise (BizException 1100 message))).
  { unfold credit_turn in Hturn. rewrite Hret in Hturn. simpl in Hturn.
    apply Z.ltb_lt in Hlow. rewrite Hlow in Hturn.
    destruct (finally_spec l true (Raise (BizException 1100 message))
                (evict (window_name l) g)) as (p0 & Hfin & Hp0).
    fold message in Hturn. rewrite Hfin in Hturn. simplify_eq.
    split_and!; [done|done|]. exists l. done. }
  destruct Hg' as (-> & -> & Hend).
  assert (Hout : window_ l ∉ windows (release_bucket (window_ l) (evict (window_name l) g))).
  { simpl. intros [Hne _]%list_elem_of_filter. by apply Hne. }
  split_and!; try done.
  - intros acts s s' evs' Hs Hrun Htr a Ha.
    apply run_shape in Hrun as (_ & Hn & evs0 & Ht & Hsel).
    rewrite Ht in Htr. apply app_inv_head in Htr as <-.
    apply Hsel in Ha. rewrite Hs in Ha, Hn. split.
    + intros ->. by apply Hout.
    + rewrite Hn. simpl in Ha. apply list_elem_of_filter in Ha as [Hne _].
      by rewrite <- (same_names_release_evict (window_ l) (window_name l) g a) in Hne.
  - unfold sendAlert_unless_dev, alerts.
    destruct (decide (C_CUSTOM_KEY_MACHINE g = "MY_DEV")) as [->|Hm]; simpl; [done|].
    destruct (decide (C_CUSTOM_KEY_MACHINE g ≠ "MY_DEV")); done.
  - unfold sendAlert_unless_dev, releases. by case_match.
Qed.

Lemma low_credit_evicts_witness :
  let '(p, g', evs) := credit_turn job_on_028 low_credit FileMissing (two_windows unset) in
  windows g' = [1%nat]
  ∧ alerts evs = [EvAlert (bracket "即梦028" "积分不足")]
  ∧ releases evs = [EvRelease 0%nat].
Proof.
  destruct (credit_turn job_on_028 low_credit FileMissing (two_windows unset))
    as [[p g'] evs] eqn:Hturn.
  pose proof (low_credit_evicts job_on_028 200
                (mkCredit (Some "0") (Some 4) None (Some 10)) FileMissing
                (λ _ _, inl Timeout) (two_windows unset) p g' evs
                eq_refl eq_refl eq_refl eq_refl Hturn) as (Hw & _ & _ & Ha & Hr & _).
  split_and!; [by rewrite Hw|by rewrite Ha|done].
Defined.

(** ** Transient failures: the rate limit and the page timeout *)

(** C5, as stated, fails for the page timeout: the handler of
    [PlaywrightTimeoutError] (lines 368-376) removes the window from
    [windows] before it raises error 1006. *)
Lemma page_timeout_evicts :
  let s' := after timeout_on_028 (idle (two_windows unset)) in
  run timeout_on_028 (idle (two_windows unset)) = Some s'
  ∧ windows (glob s') = [1%nat]
  ∧ windows (glob s') ≠ windows (two_windows unset).
Proof.
  intros s'. split; [vm_compute; reflexivity|]. split; [reflexivity|].
  vm_compute. discriminate.
Qed.

(** C5, amended.  A rate-limit response ([ret] "1" with [errmsg]
    "api rate limit") leaves [windows] as it is, sends no alert, releases
    the token and fails the job with error 1003.  A timeout of the page
    interaction does evict: the handler filters the window's name out of
    [windows] and closes the page; when that close succeeds the alert is
    sent (except on [MY_DEV]) and the job fails with error 1006. *)
Theorem rate_limit_keeps_page_timeout_evicts l g :
  (∀ status body p g' evs,
     p_ret body = Some "1" → errmsg body = Some "api rate limit" →
     painting_turn l (Reply status (inr body)) g = (p, g', evs) →
     windows g' = windows g ∧ alerts evs = []
     ∧ releases evs = [EvRelease (window_ l)]
     ∧ ends_with p (Raise (BizException 1003 (bracket (window_name l) "api限速"))))
  ∧ step (Interacted InteractTimeout) (PInteract l) g
    = Some (PHandlerClose l, evict (window_name l) g, [])
  ∧ (∀ p g' evs,
       step (PageClosed None) (PHandlerClose l) g = Some (p, g', evs) →
       let message := bracket (window_name l) "请求页面位置超时" in
       windows g' = windows g
       ∧ alerts evs = (if decide (C_CUSTOM_KEY_MACHINE g = "MY_DEV") then []
                       else [EvAlert message])
       ∧ releases evs = [EvRelease (window_ l)]
       ∧ ends_with p (Raise (BizException 1006 message))).
Proof.
  split_and!.
  - intros status body p g' evs Hret Herr Hturn.
    unfold painting_turn, painting_error in Hturn.
    rewrite Hret, Herr in Hturn. simpl in Hturn.
    destruct (finally_spec l true
                (Raise (BizException 1003 (bracket (window_name l) "api限速"))) g)
      as (p0 & Hfin & Hp0).
    destruct (bool_decide (status ≠ 200)); simpl in Hturn;
      rewrite Hfin in Hturn; simplify_eq; (split_and!; try done; by exists l).
  - done.
  - intros p g' evs Hst message. simpl in Hst. fold message in Hst.
    destruct (finally_spec l true (Raise (BizException 1006 message)) g)
      as (p0 & Hfin & Hp0).
    rewrite Hfin in Hst. simplify_eq. split_and!; [done| | |by exists l].
    + unfold sendAlert_unless_dev, alerts.
      destruct (decide (C_CUSTOM_KEY_MACHINE g = "MY_DEV")) as [->|Hm]; simpl; [done|].
      destruct (decide (C_CUSTOM_KEY_MACHINE g ≠ "MY_DEV")); done.
    + unfold sendAlert_unless_dev, releases. by case_match.
Qed.

Lemma rate_limit_keeps_page_timeout_evicts_witness :
  let '(p, g', evs) :=
    painting_turn job_on_028 (Reply 200 (inr rate_limited)) (two_windows unset) in
  windows g' = [0%nat; 1%nat] ∧ alerts evs = [].
Proof.
  destruct (painting_turn job_on_028 (Reply 200 (inr rate_limited)) (two_windows unset))
    as [[p g'] evs] eqn:Hturn.
  destruct (rate_limit_keeps_page_timeout_evicts job_on_028 (two_windows unset))
    as (H & _ & _).
  destruct (H 200 rate_limited p g' evs eq_refl eq_refl Hturn) as (Hw & Ha & _).
  split; [by rewrite Hw|done].
Defined.

(** ** A successful response carries images *)

Lemma step_result r p g p' g' evs o :
  step r p g = Some (p', g', evs) →
  result p' = Some o →
  result p = Some o ∨ (result p = None ∧ genuine o).
Proof.
  intros H Ho. destruct (in_try p) as [l|] eqn:Hl.
  { right. split; [by destruct p|].
    by apply (turn_result _ _ _ _ _ (step_turn_ok _ _ _ _ _ _ _ Hl H)). }
  destruct p; simplify_eq/=.
  - right. split; [done|]. destruct r; simplify_eq/=. case_match; [|done].
    unfold acquire_turn in H. repeat case_match; simplify_eq/=; try done.
    destruct (_ !! _); simplify_eq/=. destruct (heap _ !! _); simplify_eq/=.
    repeat case_match; simplify_eq/=.
  - right. split; [done|]. destruct r as [|[e|h]| | | | |]; simplify_eq/=.
    apply genuine_thrown.
  - left. destruct r; simplify_eq/=. done.
Qed.

Lemma job_run_genuine p evs p' o :
  job_run p evs p' → result p = None → result p' = Some o → genuine o.
Proof.
  intros Hrun. revert o.
  assert (Hcarry : ∀ q evs0 q', job_run q evs0 q' →
            ∀ o, result q = Some o → result q' = Some o).
  { clear. intros q evs0 q' Hq.
    induction Hq as [q|q r g q1 g1 e1 e2 q2 Hst Hq IH]; intros o Ho; [done|].
    apply IH. destruct q; simplify_eq/=. destruct r; simplify_eq/=. done. }
  induction Hrun as [p|p r g p1 g1 e1 e2 p2 Hst Hrun IH]; intros o Hp Ho; [congruence|].
  destruct (result p1) as [o1|] eqn:H1.
  - rewrite (Hcarry _ _ _ Hrun o1 H1) in Ho. simplify_eq.
    destruct (step_result _ _ _ _ _ _ _ Hst H1) as [?|[_ ?]]; [congruence|done].
  - by apply IH.
Qed.

Lemma download_from_spec fetch index image_urls :
  match download_from fetch index image_urls with
  | inl e => ∃ m, e = BizException 1004 m
  | inr inner_imgs => length inner_imgs = length image_urls
  end.
Proof.
  revert index. induction image_urls as [|u us IH]; intros index; simpl; [done|].
  destruct (fetch index u); [by eexists|].
  specialize (IH (S index)). destruct (download_from fetch (S index) us); [done|].
  simpl. by rewrite IH.
Qed.

Lemma process_img_genuine fetch o :
  genuine o → code (process_img fetch o) = 0 →
  ∃ inner_imgs, data (process_img fetch o) = Some (mkPayload inner_imgs)
                ∧ inner_imgs ≠ [].
Proof.
  intros Hg Hc. destruct o as [u|e]; simpl in *.
  - unfold download_image in *. pose proof (download_from_spec fetch 0 u) as Hd.
    destruct (download_from fetch 0 u) as [e|imgs].
    + destruct Hd as [m ->]. done.
    + exists imgs. split; [done|]. intros ->. by destruct u.
  - destruct e; simpl in *; try done.
    rewrite Hc in Hg. rewrite !elem_of_cons, elem_of_nil in Hg. intuition discriminate.
Qed.

(** C10.  A job starts with a turn of the acquisition loop and is then
    resumed until it is done.  If the response that [process_img] builds
    from its end has code 0, the response carries a non-empty
    [output_images].  And when the painting response is a plain success
    from which no image URL is parsed, the job ends with
    [BizException(1005, ...)], the token released, and the response has
    code 1005. *)
Theorem success_has_images fetch :
  (∀ path g p0 g0 evs0 evs o,
     acquire_turn path (clock g) g = Some (p0, g0, evs0) →
     job_run p0 evs (PDone o) →
     code (process_img fetch o) = 0 →
     ∃ inner_imgs, data (process_img fetch o) = Some (mkPayload inner_imgs)
                   ∧ inner_imgs ≠ [])
  ∧ (∀ l body g p g' evs,
       p_ret body = Some "0" → parse_items (item_list body) = Some [] →
       painting_turn l (Reply 200 (inr body)) g = (p, g', evs) →
       let e := BizException 1005 (bracket (window_name l) "未找到图片URL") in
       ends_with p (Raise e) ∧ releases evs = [EvRelease (window_ l)]
       ∧ process_img fetch (Raise e) = mkResponse 1005 None (str e)).
Proof.
  split.
  - intros path g p0 g0 evs0 evs o Hacq Hrun Hcode.
    apply process_img_genuine; [|done].
    destruct (result p0) as [o0|] eqn:H0.
    + assert (o0 = o) as ->.
      { clear -Hrun H0. remember (PDone o) as q eqn:Hq.
        revert o0 H0 Hq. induction Hrun as [p|p r g p1 g1 e1 e2 p2 Hst Hrun IH];
          intros o0 H0 Hq; [subst; simpl in H0; congruence|].
        destruct p; simplify_eq/=. destruct r; simplify_eq/=. by apply IH. }
      unfold acquire_turn in Hacq. repeat case_match; simplify_eq/=; try done.
      all: destruct (_ !! _); simplify_eq/=; destruct (heap _ !! _); simplify_eq/=;
        repeat case_match; simplify_eq/=.
    + by eapply job_run_genuine.
  - intros l body g p g' evs Hret Hparse Hturn e.
    unfold painting_turn in Hturn. rewrite Hret, Hparse in Hturn. simpl in Hturn.
    fold e in Hturn. destruct (finally_spec l true (Raise e) g) as (p1 & Hfin & Hp1).
    rewrite Hfin in Hturn. simplify_eq. split_and!; [by exists l|done|done].
Qed.

Lemma success_has_images_witness :
  ∃ inner_imgs,
    data (process_img saved (Return [Some "https://p.example/1.png"]))
    = Some (mkPayload inner_imgs) ∧ inner_imgs ≠ [].
Proof.
  destruct (success_has_images saved) as [H _].
  eapply (H "a.png" (two_windows unset)).
  - reflexivity.
  - eapply (job_run_turn _ (Connected (inr 11%nat)) (two_windows unset)); [reflexivity|].
    eapply (job_run_turn _ (PageOpened None) (two_windows unset)); [reflexivity|].
    eapply (job_run_turn _ (CreditResponse credit_ok (FileImage 1080 1920))
              (two_windows unset)); [reflexivity|].
    eapply (job_run_turn _ (Interacted InteractOk) (two_windows unset)); [reflexivity|].
    eapply (job_run_turn _ (PaintingResponse (Reply 200 (inr one_image)))
              (two_windows unset)); [reflexivity|].
    eapply (job_run_turn _ (PageClosed None) (two_windows unset)); [reflexivity|].
    apply job_run_here.
  - reflexivity.
Defined.

(** ** Waiting for a token *)

Lemma step_wake path start wake g :
  wake ≤ clock g → step Wake (PSleep path start wake) g = acquire_turn path start g.
Proof. intros H. simpl. apply Z.leb_le in H. by rewrite H. Qed.

Lemma acquire_turn_late path start g :
  60 * 5 * 1000 < clock g - start →
  acquire_turn path start g = Some (timed_out, g, []).
Proof. intros H. unfold acquire_turn. apply Z.ltb_lt in H. by rewrite H. Qed.

Lemma acquire_turn_refused path start g :
  clock g - start ≤ 60 * 5 * 1000 → windows g ≠ [] → saturated g →
  ∃ w, w ∈ windows g
       ∧ acquire_turn path start g
         = Some (PSleep path start (clock g + 5 * 1000),
                 set_window_index (S (window_index g)) g,
                 [EvSelect w; EvSleep (5 * 1000)]).
Proof.
  intros Ht Hne Hsat. unfold acquire_turn.
  apply Z.ltb_ge in Ht. rewrite Ht.
  destruct (windows g) as [|a ws] eqn:Hws; [done|].
  destruct (lookup_lt_is_Some_2 (a :: ws) (window_index g `mod` length (a :: ws))%nat)
    as [w Hw].
  { apply Nat.mod_upper_bound. simpl. lia. }
  rewrite Hw. simpl.
  assert (Hin : w ∈ windows g) by (rewrite Hws; by eapply list_elem_of_lookup_2).
  destruct (Hsat w Hin) as (o & Ho & Hav). rewrite Ho. simpl.
  unfold get_token. apply Z.ltb_ge in Hav. rewrite Hav. simpl.
  exists w. split; [by rewrite Hws in Hin|done].
Qed.

Lemma sleep_loop_done fuel lag o g :
  sleep_loop fuel lag (PDone o) g = Some (PDone o, g, []).
Proof. by destruct fuel. Qed.

Lemma sleep_loop_times_out fuel lag path start wake g :
  windows g ≠ [] → saturated g →
  (0 < fuel)%nat →
  60 * 5 * 1000 - (wake - start) + 5 * 1000 < 5 * 1000 * Z.of_nat fuel →
  ∃ g' ws,
    sleep_loop fuel lag (PSleep path start wake) g = Some (timed_out, g', refusals ws)
    ∧ 60 * 5 * 1000 < clock g' - start
    ∧ Forall (λ w, w ∈ windows g) ws
    ∧ windows g' = windows g ∧ heap g' = heap g.
Proof.
  revert wake g. induction fuel as [|fuel IH]; intros wake g Hne Hsat Hpos Hfuel.
  - lia.
  - cbn [sleep_loop].
    set (g1 := set_clock (wake + Z.of_nat (lag fuel)) g).
    rewrite step_wake by (simpl; lia).
    destruct (Z.lt_ge_cases (60 * 5 * 1000) (clock g1 - start)) as [Hlate|Hearly].
    + rewrite acquire_turn_late by done. simpl.
      unfold timed_out. rewrite sleep_loop_done. exists g1, []. split_and!; try done.
    + destruct (acquire_turn_refused path start g1) as (w & Hw & ->); [lia|done|done|].
      cbn [mbind option_bind].
      destruct (IH (clock g1 + 5 * 1000) (set_window_index (S (window_index g1)) g1))
        as (g' & ws & -> & Hclock & Hws & Hpool & Hheap);
        [done|done|simpl in *; lia|simpl in *; lia|].
      cbn [mbind option_bind].
      exists g', (w :: ws). split_and!; try done. by constructor.
Qed.

(** C3.  With a non-empty pool whose buckets are all empty and stay so,
    the acquisition loop ends, after at most 61 sleeps, by raising
    [Exception('get token bucket timeout')]: it does so at the first test
    of the loop that finds more than 300 s elapsed since the start, and
    until then every refused attempt is followed by a sleep of 5 s.  The
    pool and the buckets are left as they were. *)
Theorem saturated_acquire_times_out path lag g :
  windows g ≠ [] → saturated g →
  ∃ g' ws,
    acquire 61 lag path g = Some (timed_out, g', refusals ws)
    ∧ 60 * 5 * 1000 < clock g' - clock g
    ∧ ws ≠ [] ∧ Forall (λ w, w ∈ windows g) ws
    ∧ windows g' = windows g ∧ heap g' = heap g.
Proof.
  intros Hne Hsat. unfold acquire.
  destruct (acquire_turn_refused path (clock g) g) as (w & Hw & ->); [lia|done|done|].
  cbn [mbind option_bind].
  destruct (sleep_loop_times_out 61 lag path (clock g) (clock g + 5 * 1000)
              (set_window_index (S (window_index g)) g))
    as (g' & ws & -> & Hclock & Hws & Hpool & Hheap); [done|done|lia|lia|].
  cbn [mbind option_bind].
  exists g', (w :: ws). split_and!; try done. by constructor.
Qed.

Lemma saturated_acquire_times_out_witness :
  ∃ g' ws,
    acquire 61 (λ _, 0%nat) "a.png" busy_pool = Some (timed_out, g', refusals ws)
    ∧ 60 * 5 * 1000 < clock g' - clock busy_pool.
Proof.
  destruct (saturated_acquire_times_out "a.png" (λ _, 0%nat) busy_pool)
    as (g' & ws & H & Hc & _).
  - discriminate.
  - intros w Hw. apply list_elem_of_singleton in Hw as ->.
    exists window_busy. split; [reflexivity|]. simpl. lia.
  - exists g', ws. split; [exact H|exact Hc].
Defined.

Example saturated_acquire_runs :
  (λ r, (r.1.1, clock r.1.2, length r.2)) <$> acquire 61 (λ _, 0%nat) "a.png" busy_pool
  = Some (timed_out, 305000, 122%nat).
Proof. vm_compute. reflexivity. Qed.

(** ** Round-robin selection *)

Lemma hits_app n i c M1 M2 :
  hits n i c (M1 + M2) = (hits n i c M1 + hits n i (c + M1) M2)%nat.
Proof.
  revert c. induction M1 as [|M1 IH]; intros c; simpl.
  - by rewrite Nat.add_0_r.
  - rewrite IH. replace (S c + M1)%nat with (c + S M1)%nat by lia. lia.
Qed.

Lemma hits_pos n i c M k :
  (k < M)%nat → ((c + k) `mod` n = i)%nat → (1 ≤ hits n i c M)%nat.
Proof.
  revert c k. induction M as [|M IH]; intros c k Hk Hmod; [lia|]. simpl.
  destruct k as [|k].
  - rewrite Nat.add_0_r in Hmod. rewrite decide_True by done. lia.
  - assert (1 ≤ hits n i (S c) M)%nat; [|lia].
    apply (IH (S c) k); [lia|]. by replace (S c + k)%nat with (c + S k)%nat by lia.
Qed.

Lemma hits_block n i c : (i < n)%nat → (1 ≤ hits n i c n)%nat.
Proof.
  intros Hi.
  apply (hits_pos n i c n ((i + (n - c `mod` n)) `mod` n)%nat).
  - apply Nat.mod_upper_bound. lia.
  - rewrite Nat.Div0.add_mod_idemp_r.
    pose proof (Nat.mod_upper_bound c n ltac:(lia)) as Hlt.
    pose proof (Nat.div_mod_eq c n) as Hc.
    replace (c + (i + (n - c `mod` n)))%nat with (i + (c / n + 1) * n)%nat by nia.
    rewrite Nat.Div0.mod_add. by apply Nat.mod_small.
Qed.

Lemma hits_floor n i c M : (i < n)%nat → (M / n ≤ hits n i c M)%nat.
Proof.
  intros Hi.
  assert (Hq : ∀ q c M, (q * n ≤ M)%nat → (q ≤ hits n i c M)%nat).
  { clear c M. induction q as [|q IH]; intros c M Hle; [lia|].
    replace M with (n + (M - n))%nat by lia. rewrite hits_app.
    pose proof (hits_block n i c Hi). pose proof (IH (c + n)%nat (M - n)%nat ltac:(lia)).
    lia. }
  apply Hq. rewrite Nat.mul_comm. apply Nat.Div0.mul_div_le.
Qed.

(** An attempt that gets as far as line 284 selects
    [windows[window_index % len(windows)]] and moves the cursor by one. *)
Lemma acquire_turn_selects path start g p g' evs :
  acquire_turn path start g = Some (p, g', evs) →
  (∀ o, p ≠ PDone o) →
  ∃ w rest,
    windows g !! (window_index g `mod` length (windows g))%nat = Some w
    ∧ evs = EvSelect w :: rest ∧ (∀ w', EvSelect w' ∉ rest)
    ∧ window_index g' = S (window_index g)
    ∧ windows g' = windows g.
Proof.
  unfold acquire_turn. intros H Hp.
  case_match; [simplify_eq; by destruct (Hp _ eq_refl)|].
  destruct (windows g) as [|a ws] eqn:Hws; [simplify_eq; by destruct (Hp _ eq_refl)|].
  destruct ((a :: ws) !! (window_index g `mod` length (a :: ws))%nat) as [w|] eqn:Hw;
    simpl in H; [|done].
  destruct (heap g !! w) as [o|] eqn:Ho; simpl in H; [|done].
  exists w. destruct (get_token (token_bucket o)) as [[] b]; simpl in H.
  - destruct (instance o); simplify_eq; eexists; (split_and!; [done|done|no_select|done|done]).
  - simplify_eq. eexists. split_and!; [done|done|no_select|done|done].
Qed.

Lemma occurrences_cons e e' evs :
  occurrences e (e' :: evs)
  = ((if decide (e' = e) then 1 else 0) + occurrences e evs)%nat.
Proof. unfold occurrences. rewrite filter_cons. by case_decide. Qed.

Lemma occurrences_app e evs1 evs2 :
  occurrences e (evs1 ++ evs2) = (occurrences e evs1 + occurrences e evs2)%nat.
Proof. unfold occurrences. by rewrite filter_app, length_app. Qed.

Lemma dispatch_hits paths g ps g' evs :
  dispatch paths g = Some (ps, g', evs) → Forall acquired ps →
  windows g' = windows g
  ∧ window_index g' = (window_index g + length paths)%nat
  ∧ ∀ i w, windows g !! i = Some w →
      (hits (length (windows g)) i (window_index g) (length paths)
       ≤ occurrences (EvSelect w) evs)%nat.
Proof.
  revert g ps g' evs. induction paths as [|path paths IH]; intros g ps g' evs H Hacq.
  { simplify_eq/=. split_and!; [done|lia|]. intros. lia. }
  simpl in H.
  destruct (acquire_turn path (clock g) g) as [[[p g1] evs1]|] eqn:Hturn; simplify_eq/=.
  destruct (dispatch paths g1) as [[[ps' g2] evs2]|] eqn:Hrest; simplify_eq/=.
  apply Forall_cons in Hacq as [Hp Hps].
  destruct (acquire_turn_selects _ _ _ _ _ _ Hturn) as (w0 & rest & Hw0 & -> & _ & Hidx & Hpool).
  { intros o ->. done. }
  destruct (IH _ _ _ _ Hrest Hps) as (Hpool' & Hidx' & Hhits).
  rewrite Hpool in Hpool', Hhits. rewrite Hidx in Hidx', Hhits.
  split_and!; [done|lia|].
  intros i w Hw. specialize (Hhits i w Hw).
  rewrite occurrences_app, occurrences_cons.
  case_decide as Hi.
  - rewrite Hi, Hw in Hw0. simplify_eq. rewrite decide_True by done. lia.
  - lia.
Qed.

(** Five requests on two windows of four tokens each: the selection
    alternates and every request gets its token at once. *)
Example five_requests_alternate :
  (λ r, (selections r.2, window_index r.1.2)) <$> dispatch five_requests (two_windows unset)
  = Some ([0; 1; 0; 1; 0]%nat, 5%nat).
Proof. vm_compute. reflexivity. Qed.

(** ** Opening a window while the browser is closing *)

Example closing_is_busy : busy closing.
Proof. eexists. split; [reflexivity|]. vm_compute. reflexivity. Qed.

Example opened_window :
  open_window [(40%nat, closing); (40%nat, closing);
               (900%nat, OpenBody "{'success': true}" true (Some "127.0.0.1:9221"))] 0 0 0
  = Some (inr "http://127.0.0.1:9221", 2980, 2%nat).
Proof. vm_compute. reflexivity. Qed.

Lemma open_window_busy_late script start now sleeps e t k :
  open_window script start now sleeps = Some (inl e, t, k) →
  contains busy_message (str e) = true →
  300 * 1000 < t - start ∧ now + 1000 * Z.of_nat (k - sleeps) ≤ t ∧ (sleeps ≤ k)%nat.
Proof.
  revert now sleeps. induction script as [|[took r] script IH]; intros now sleeps H Hb;
    [done|]. simpl in H.
  destruct (open_attempt r) as [e0|url]; [|simplify_eq].
  destruct (contains busy_message (str e0)) eqn:Hb0.
  - destruct (Z.ltb_spec (300 * 1000) (now + Z.of_nat took - start)).
    + simplify_eq. lia.
    + destruct (IH _ _ H Hb) as (? & ? & ?). lia.
  - simplify_eq. congruence.
Qed.

Lemma open_window_busy_ends script start now sleeps :
  Forall (λ tr, busy tr.2) script →
  (0 < length script)%nat →
  300 * 1000 - (now - start) + 1000 < 1000 * Z.of_nat (length script) →
  ∃ e t k, open_window script start now sleeps = Some (inl e, t, k)
           ∧ contains busy_message (str e) = true.
Proof.
  revert now sleeps. induction script as [|[took r] script IH];
    intros now sleeps Hall Hpos Hlen; [simpl in Hpos; lia|].
  apply Forall_cons in Hall as [(e & He & Hb) Hall]. simpl in He.
  simpl. rewrite He, Hb.
  destruct (Z.ltb_spec (300 * 1000) (now + Z.of_nat took - start)).
  - by exists e, (now + Z.of_nat took), sleeps.
  - simpl in Hlen. apply IH; [done|lia|lia].
Qed.

(** C8.  An attempt that fails with any other error ends [open_window]
    at once with that error, without a sleep.  A failure with the busy
    message is answered by [time.sleep(1)] and another attempt; it is
    raised to the caller only by an attempt that ends more than 300 s
    after the start, each retry having cost at least its second of
    sleep.  And if the provisioner keeps answering busy, [open_window]
    does end that way (302 attempts always suffice). *)
Theorem open_window_retries_busy_only start :
  (∀ took r rest now sleeps e,
     open_attempt r = inl e → contains busy_message (str e) = false →
     open_window ((took, r) :: rest) start now sleeps
     = Some (inl e, now + Z.of_nat took, sleeps))
  ∧ (∀ script e t k,
       open_window script start start 0 = Some (inl e, t, k) →
       contains busy_message (str e) = true →
       300 * 1000 < t - start ∧ 1000 * Z.of_nat k ≤ t - start)
  ∧ (∀ script,
       Forall (λ tr, busy tr.2) script → (302 ≤ length script)%nat →
       ∃ e t k, open_window script start start 0 = Some (inl e, t, k)
                ∧ contains busy_message (str e) = true
                ∧ 300 * 1000 < t - start).
Proof.
  split_and!.
  - intros took r rest now sleeps e He Hb. simpl. by rewrite He, Hb.
  - intros script e t k H Hb.
    destruct (open_window_busy_late _ _ _ _ _ _ _ H Hb) as (? & ? & ?).
    split; [done|]. replace (k - 0)%nat with k in * by lia. lia.
  - intros script Hall Hlen.
    destruct (open_window_busy_ends script start start 0 Hall) as (e & t & k & H & Hb);
      [lia|lia|].
    exists e, t, k. split_and!; [done|done|].
    by destruct (open_window_busy_late _ _ _ _ _ _ _ H Hb).
Qed.

Lemma open_window_retries_busy_only_witness :
  open_window [(40%nat, closing); (25%nat, not_found); (40%nat, closing)] 0 0 0
  = Some (inl (Exception "open window error, err={'success': false, 'msg': 'window not found'}"),
          1065, 1%nat)
  ∧ ∃ e t k, open_window (replicate 302 (0%nat, closing)) 0 0 0 = Some (inl e, t, k)
             ∧ contains busy_message (str e) = true
             ∧ 300 * 1000 < t - 0.
Proof.
  destruct (open_window_retries_busy_only 0) as (Hother & _ & Hbusy).
  split.
  - change (open_window [(40%nat, closing); (25%nat, not_found); (40%nat, closing)] 0 0 0)
      with (open_window [(25%nat, not_found); (40%nat, closing)] 0 1040 1).
    apply (Hother 25%nat not_found [(40%nat, closing)] 1040 1%nat).
    + reflexivity.
    + vm_compute. reflexivity.
  - apply Hbusy.
    + apply Forall_replicate. eexists. split; [reflexivity|]. vm_compute. reflexivity.
    + rewrite length_replicate. lia.
Defined.

(** * More of the job: the ways out that the page offers *)

(** ** When the pool is rewritten *)

(** X1.  A turn of a job rewrites [windows] in exactly three
    situations: a plain credit response with less than 15 credits, a
    timeout of the page interaction, and a painting response with [ret]
    "1018".  In these the list is filtered by the job's window name; on
    every other answer, whatever the error, the list is left as it is. *)
Theorem eviction_only_three_ways r p g p' g' evs :
  step r p g = Some (p', g', evs) →
  (evicting p r →
     ∃ l, locals_of p = Some l
          ∧ windows g' = filter (λ a, name_of g a ≠ Some (window_name l)) (windows g))
  ∧ (¬ evicting p r → windows g' = windows g).
Proof.
  intros H. destruct p; simpl in H.
  - destruct r; simplify_eq/=. case_match; [|done].
    apply acquire_turn_shape in H as (Hw & _). split; [done|by intros _].
  - destruct r as [|[e|h]| | | | |]; simplify_eq/=; (split; [done|by intros _]).
  - destruct r as [| |[e|]| | | |]; simplify_eq/=; [|split; [done|by intros _]].
    unfold finally_ in H. simpl in H. simplify_eq/=. split; [done|by intros _].
  - destruct r as [| | |r f| | |]; simplify_eq/=.
    unfold credit_turn, finally_ in H.
    destruct r as [e|status [e|body]]; simpl.
    + repeat case_match; simplify_eq/=; (split; [done|by intros _]).
    + repeat case_match; simplify_eq/=; (split; [done|by intros _]).
    + destruct (bool_decide (status ≠ 200)) eqn:Hs.
      { apply bool_decide_eq_true in Hs.
        repeat case_match; simplify_eq/=; (split; [by intros (? & _)|by intros _]). }
      apply bool_decide_eq_false in Hs. apply dec_stable in Hs.
      destruct (c_ret body) as [ret|] eqn:Hret;
        [|repeat case_match; simplify_eq/=; (split; [by intros (_ & ? & _)|by intros _])].
      destruct (bool_decide (ret ≠ "0")) eqn:Hr.
      { apply bool_decide_eq_true in Hr.
        repeat case_match; simplify_eq/=;
          (split; [intros (_ & ? & _); congruence|by intros _]). }
      apply bool_decide_eq_false in Hr. apply dec_stable in Hr. subst ret.
      destruct (Z.ltb_spec (total_credit body) 15).
      * repeat case_match; simplify_eq/=;
          (split; [intros _; by exists l|intros Hn; destruct Hn; done]).
      * repeat case_match; simplify_eq/=; (split; [intros (_ & _ & ?); lia|by intros _]).
  - destruct r as [| | | |[| |e]| |]; simplify_eq/=.
    + split; [done|by intros _].
    + split; [intros _; by exists l|intros Hn; by destruct Hn].
    + unfold finally_ in H. case_match; simplify_eq/=; (split; [done|by intros _]).
  - destruct r as [| | | | |[e|]|]; simplify_eq/=;
      unfold finally_ in H; repeat case_match; simplify_eq/=; (split; [done|by intros _]).
  - destruct r as [| | | | | |r]; simplify_eq/=.
    unfold painting_turn, painting_error, finally_ in H.
    destruct r as [e|status [e|body]]; simpl.
    + repeat case_match; simplify_eq/=; (split; [done|by intros _]).
    + repeat case_match; simplify_eq/=; (split; [done|by intros _]).
    + destruct (p_ret body) as [ret|] eqn:Hret;
        [|repeat case_match; simplify_eq/=; (split; [done|by intros _])].
      destruct (decide (ret = "1018")) as [->|Hne].
      * repeat case_match; simplify_eq/=;
          (split; [intros _; by exists l|intros Hn; by destruct Hn]).
      * rewrite (bool_decide_eq_false_2 _ Hne) in H.
        repeat case_match; simplify_eq/=; (split; [intros ?; congruence|by intros _]).
  - destruct r; simplify_eq/=. split; [done|by intros _].
  - done.
Qed.

Lemma eviction_only_three_ways_witness :
  windows (evict "即梦028" (two_windows unset)) = [1%nat]
  ∧ ∀ p' g' evs,
      step (Interacted (InteractRaise Timeout)) (PInteract job_on_028) (two_windows unset)
      = Some (p', g', evs) →
      windows g' = [0%nat; 1%nat].
Proof.
  split.
  - destruct (eviction_only_three_ways (Interacted InteractTimeout) (PInteract job_on_028)
                (two_windows unset) (PHandlerClose job_on_028)
                (evict "即梦028" (two_windows unset)) [] eq_refl) as [H _].
    destruct (H I) as (l & [= <-] & ->). reflexivity.
  - intros p' g' evs Hst.
    destruct (eviction_only_three_ways _ _ _ _ _ _ Hst) as [_ H].
    apply H. intros [].
Defined.

(** ** The input image *)

(** X2.  After a good credit response the image height decides:
    [1080 / height > 3] rejects every image less than 360 pixels high
    with error 1005, the window staying in the pool and the token being
    released; from 360 pixels on the job goes on to the page interaction
    without touching anything; a height of 0 ends in the division by
    zero of line 345. *)
Theorem image_height_threshold l status body width height g p g' evs :
  status = 200 → c_ret body = Some "0" → 15 ≤ total_credit body →
  credit_turn l (Reply status (inr body)) (FileImage width height) g = (p, g', evs) →
  (360 ≤ height → p = PInteract l ∧ g' = g ∧ evs = [])
  ∧ (0 < height < 360 →
       ends_with p (Raise (BizException 1005
                      (bracket (window_name l) "图片尺寸过低，无法上传")))
       ∧ windows g' = windows g ∧ alerts evs = []
       ∧ releases evs = [EvRelease (window_ l)])
  ∧ (height = 0 → ends_with p (Raise ZeroDivisionError)
                  ∧ windows g' = windows g ∧ releases evs = [EvRelease (window_ l)]).
Proof.
  intros -> Hret Hcredit Hturn. unfold credit_turn in Hturn.
  rewrite Hret in Hturn. simpl in Hturn.
  apply Z.ltb_ge in Hcredit. rewrite Hcredit in Hturn.
  split_and!.
  - intros Hh. assert ((height =? 0) = false) as E0 by (apply Z.eqb_neq; lia).
    assert ((3 * height <? 1080) = false) as E1 by (apply Z.ltb_ge; lia).
    rewrite E0, E1 in Hturn. by simplify_eq.
  - intros Hh. assert ((height =? 0) = false) as E0 by (apply Z.eqb_neq; lia).
    assert ((3 * height <? 1080) = true) as E1 by (apply Z.ltb_lt; lia).
    rewrite E0, E1 in Hturn.
    match type of Hturn with finally_ _ _ ?o _ = _ =>
      destruct (finally_spec l true o g) as (p0 & Hfin & Hp0) end.
    rewrite Hfin in Hturn. simplify_eq. split_and!; try done. by exists l.
  - intros ->. simpl in Hturn.
    destruct (finally_spec l true (Raise ZeroDivisionError) g) as (p0 & Hfin & Hp0).
    rewrite Hfin in Hturn. simplify_eq. split_and!; try done. by exists l.
Qed.

Lemma image_height_threshold_witness :
  credit_turn job_on_028 credit_ok (FileImage 1080 360) (two_windows unset)
  = (PInteract job_on_028, two_windows unset, []).
Proof.
  destruct (credit_turn job_on_028 credit_ok (FileImage 1080 360) (two_windows unset))
    as [[p g'] evs] eqn:Hturn.
  destruct (image_height_threshold job_on_028 200
              (mkCredit (Some "0") (Some 80) None None) 1080 360 (two_windows unset)
              p g' evs eq_refl eq_refl ltac:(vm_compute; discriminate) Hturn) as [H _].
  destruct H as (-> & -> & ->); [lia|reflexivity].
Defined.

(** ** A painting response that is not a success *)

(** X3.  A painting response with [ret] "1018" removes every window of
    the job's window name from [windows], on every machine, and the
    token is released.  Off the developer machine one alert is sent and
    the job fails with [BizException(1101, "[name] 被封号")].  On [MY_DEV]
    the guard of line 388 skips both the alert and that raise, so the
    job falls through to [Exception('request error')], which
    [process_img] reports as code 1000. *)
Theorem ban_evicts l status body fetch g p g' evs :
  p_ret body = Some "1018" →
  painting_turn l (Reply status (inr body)) g = (p, g', evs) →
  let m := bracket (window_name l) "被封号" in
  windows g' = filter (λ a, name_of g a ≠ Some (window_name l)) (windows g)
  ∧ releases evs = [EvRelease (window_ l)]
  ∧ (C_CUSTOM_KEY_MACHINE g ≠ "MY_DEV" →
       alerts evs = [EvAlert m] ∧ ends_with p (Raise (BizException 1101 m))
       ∧ code (process_img fetch (Raise (BizException 1101 m))) = 1101)
  ∧ (C_CUSTOM_KEY_MACHINE g = "MY_DEV" →
       alerts evs = [] ∧ ends_with p (Raise (Exception "request error"))
       ∧ code (process_img fetch (Raise (Exception "request error"))) = 1000).
Proof.
  intros Hret Hturn m. unfold painting_turn, painting_error in Hturn.
  rewrite Hret in Hturn. simpl in Hturn.
  replace (if bool_decide (status ≠ 200) then inr true else inr true)
    with (inr (A:=exn) true) in Hturn by (by destruct (bool_decide (status ≠ 200))).
  fold m in Hturn.
  destruct (decide (C_CUSTOM_KEY_MACHINE g = "MY_DEV")) as [Hdev|Hprod].
  - rewrite bool_decide_eq_false_2 in Hturn by (intros Hn; by apply Hn).
    destruct (finally_spec l true (Raise (Exception "request error"))
                (evict (window_name l) g)) as (p0 & Hfin & Hp0).
    rewrite Hfin in Hturn. simplify_eq.
    split_and!; [done|done|done|]. intros _. split_and!; [done| |done]. by exists l.
  - rewrite bool_decide_eq_true_2 in Hturn by done.
    destruct (finally_spec l true (Raise (BizException 1101 m))
                (evict (window_name l) g)) as (p0 & Hfin & Hp0).
    rewrite Hfin in Hturn. simplify_eq.
    split_and!; [done|done| |done]. intros _. split_and!; [done| |done]. by exists l.
Qed.

Lemma ban_evicts_witness :
  let '(p, g', evs) :=
    painting_turn job_on_028 (Reply 200 (inr banned_reply)) (two_windows unset) in
  windows g' = [1%nat] ∧ alerts evs = [EvAlert (bracket "即梦028" "被封号")].
Proof.
  destruct (painting_turn job_on_028 (Reply 200 (inr banned_reply)) (two_windows unset))
    as [[p g'] evs] eqn:Hturn.
  destruct (ban_evicts job_on_028 200 banned_reply (λ _ _, inl Timeout)
              (two_windows unset) p g' evs eq_refl Hturn) as (Hw & _ & Hprod & _).
  split; [by rewrite Hw|]. apply Hprod. discriminate.
Defined.

(** X4.  A failed painting response that is neither the rate limit nor
    the ban (a status other than 200, or a [ret] other than "0", "1018"
    and the rate-limited "1") never reaches a [BizException]: off the
    developer machine line 389 reads the local [message] before any
    assignment and the job ends with [UnboundLocalError]; on [MY_DEV] it
    ends with [Exception('request error')].  Either way no alert is
    sent, the pool is kept, the token is released and the caller sees
    code 1000. *)
Theorem unclassified_failure l status body ret fetch g p g' evs :
  p_ret body = Some ret →
  status ≠ 200 ∨ ret ≠ "0" →
  ret ≠ "1018" →
  (ret = "1" → ∃ m, errmsg body = Some m ∧ m ≠ "api rate limit") →
  painting_turn l (Reply status (inr body)) g = (p, g', evs) →
  let e := if decide (C_CUSTOM_KEY_MACHINE g = "MY_DEV")
           then Exception "request error" else UnboundLocalError in
  ends_with p (Raise e)
  ∧ windows g' = windows g ∧ alerts evs = []
  ∧ releases evs = [EvRelease (window_ l)]
  ∧ code (process_img fetch (Raise e)) = 1000.
Proof.
  intros Hret Hfail Hban Hrate Hturn e.
  unfold painting_turn, painting_error in Hturn. rewrite Hret in Hturn.
  assert (Hfailed : (if bool_decide (status ≠ 200) then inr true
                     else inr (A:=exn) (bool_decide (ret ≠ "0"))) = inr true).
  { destruct (decide (status = 200)) as [Hs|Hs].
    - rewrite bool_decide_eq_false_2 by (intros Hn; by apply Hn).
      destruct Hfail; [done|]. by rewrite bool_decide_eq_true_2.
    - by rewrite bool_decide_eq_true_2. }
  rewrite Hfailed in Hturn.
  assert (Hnot : (if bool_decide (ret = "1")
                  then match errmsg body with
                       | Some m => inr (bool_decide (m = "api rate limit"))
                       | None => inl (KeyError "errmsg")
                       end
                  else inr (A:=exn) false) = inr false).
  { destruct (decide (ret = "1")) as [H1|H1].
    - rewrite bool_decide_eq_true_2 by done.
      destruct (Hrate H1) as (m & -> & Hm). by rewrite bool_decide_eq_false_2.
    - by rewrite bool_decide_eq_false_2. }
  rewrite Hnot in Hturn.
  rewrite (bool_decide_eq_false_2 _ Hban) in Hturn. simpl in Hturn.
  destruct (finally_spec l true (Raise e) g) as (p0 & Hfin & Hp0).
  unfold e in *. destruct (decide (C_CUSTOM_KEY_MACHINE g = "MY_DEV")) as [Hdev|Hprod].
  - rewrite bool_decide_eq_false_2 in Hturn by (intros Hn; by apply Hn).
    rewrite Hfin in Hturn. simplify_eq. split_and!; try done. by exists l.
  - rewrite bool_decide_eq_true_2 in Hturn by done.
    rewrite Hfin in Hturn. simplify_eq. split_and!; try done. by exists l.
Qed.

Lemma unclassified_failure_witness :
  let '(p, g', evs) :=
    painting_turn job_on_028 (Reply 500 (inr server_error)) (two_windows unset) in
  ends_with p (Raise UnboundLocalError) ∧ windows g' = [0%nat; 1%nat].
Proof.
  destruct (painting_turn job_on_028 (Reply 500 (inr server_error)) (two_windows unset))
    as [[p g'] evs] eqn:Hturn.
  destruct (unclassified_failure job_on_028 500 server_error "5000" (λ _ _, inl Timeout)
              (two_windows unset) p g' evs eq_refl) as (He & Hw & _);
    [left; discriminate|discriminate|discriminate|exact Hturn|].
  split; [exact He|by rewrite Hw].
Defined.

(** X5.  When the page interaction times out and the [page.close()] of
    the handler (line 372) raises as well, the window has already been
    filtered out of [windows], but the handler never gets to its alert
    nor to error 1006: the job ends with the error of the close, the
    token released, and the caller sees code 1000. *)
Theorem failed_close_evicts_silently l e fetch g :
  ∃ g1 p2 g2 evs,
    step (Interacted InteractTimeout) (PInteract l) g = Some (PHandlerClose l, g1, [])
    ∧ step (PageClosed (Some e)) (PHandlerClose l) g1 = Some (p2, g2, evs)
    ∧ windows g2 = filter (λ a, name_of g a ≠ Some (window_name l)) (windows g)
    ∧ alerts evs = []
    ∧ releases evs = [EvRelease (window_ l)]
    ∧ ends_with p2 (Raise (thrown e))
    ∧ code (process_img fetch (Raise (thrown e))) = 1000.
Proof.
  destruct (finally_spec l true (Raise (thrown e)) (evict (window_name l) g))
    as (p0 & Hfin & Hp0).
  exists (evict (window_name l) g), p0,
    (release_bucket (window_ l) (evict (window_name l) g)), [EvRelease (window_ l)].
  split_and!; try done.
  - simpl. by rewrite Hfin.
  - by exists l.
  - by destruct e.
Qed.

(** * Invariants of the running system *)

Lemma instance_alter_bucket f w (h : gmap nat window) a :
  (∀ o, instance (f o) = instance o) →
  instance <$> alter f w h !! a = instance <$> h !! a.
Proof.
  intros Hf. rewrite lookup_alter. case_decide; [subst|done].
  destruct (h !! a); simpl; [by rewrite Hf|done].
Qed.

Lemma instance_release w g a :
  instance <$> heap (release_bucket w g) !! a = instance <$> heap g !! a.
Proof. by apply instance_alter_bucket. Qed.

Ltac dev_done :=
  let Hdev := fresh "Hdev" in
  intros Hdev; unfold evict, set_windows in *; simpl in *; first
    [ done
    | exfalso; rewrite Hdev in *;
      match goal with
      | H : bool_decide (?m ≠ ?m) = true |- _ =>
        apply bool_decide_eq_true_1 in H; by destruct H
      | H : ?m ≠ ?m |- _ => by destruct H
      end ].

Ltac quiet_done :=
  split; simpl;
  [ done | done | done | done | done | dev_done
  | first [ done | intros; apply instance_release ] ].

Lemma finally_quiet l page o g p g' evs :
  finally_ l page o g = (p, g', evs) → turn_quiet g g' evs.
Proof. unfold finally_. intros H. case_match; simplify_eq; quiet_done. Qed.

Lemma credit_turn_quiet l r f g p g' evs :
  credit_turn l r f g = (p, g', evs) → turn_quiet g g' evs.
Proof.
  unfold credit_turn, finally_, sendAlert_unless_dev. intros H.
  repeat case_match; simplify_eq; quiet_done.
Qed.

Lemma painting_turn_quiet l r g p g' evs :
  painting_turn l r g = (p, g', evs) → turn_quiet g g' evs.
Proof.
  unfold painting_turn, painting_error, finally_. intros H.
  repeat case_match; simplify_eq; quiet_done.
Qed.

Lemma step_turn_quiet r p g p' g' evs l :
  in_try p = Some l →
  step r p g = Some (p', g', evs) →
  turn_quiet g g' evs.
Proof.
  intros Hl H. destruct p; simplify_eq/=.
  - destruct r as [| | [e|] | | | |]; simplify_eq/=.
    + by eapply finally_quiet.
    + quiet_done.
  - destruct r; simplify_eq/=. by eapply credit_turn_quiet.
  - destruct r as [| | | |[| |e]| |]; simplify_eq/=.
    + quiet_done.
    + quiet_done.
    + by eapply finally_quiet.
  - destruct r as [| | | | |[e|]|]; simplify_eq/=.
    + by eapply finally_quiet.
    + unfold finally_, sendAlert_unless_dev in H.
      repeat case_match; simplify_eq; quiet_done.
  - destruct r; simplify_eq/=. by eapply painting_turn_quiet.
Qed.

(** The four ways a turn of the acquisition loop can go. *)
Lemma acquire_turn_cases path start g p g' evs :
  acquire_turn path start g = Some (p, g', evs) →
  (60 * 5 * 1000 < clock g - start ∧ p = timed_out ∧ g' = g ∧ evs = [])
  ∨ (windows g = [] ∧ p = PDone (Raise ZeroDivisionError) ∧ g' = g ∧ evs = [])
  ∨ ∃ w o,
      windows g !! (window_index g `mod` length (windows g))%nat = Some w
      ∧ heap g !! w = Some o
      ∧ ((p = PSleep path start (clock g + 5 * 1000)
          ∧ g' = set_window_index (S (window_index g)) g
          ∧ evs = [EvSelect w; EvSleep (5 * 1000)])
         ∨ ∃ b,
             get_token (token_bucket o) = (true, b)
             ∧ g' = set_heap (<[w := with_bucket b o]> (heap g))
                      (set_window_index (S (window_index g)) g)
             ∧ ((instance o = None ∧ p = PConnect (mkLocals path w (name o))
                 ∧ evs = [EvSelect w; EvProvision w])
                ∨ (is_Some (instance o) ∧ p = PNewPage (mkLocals path w (name o))
                   ∧ evs = [EvSelect w]))).
Proof.
  unfold acquire_turn. intros H.
  destruct (Z.ltb_spec (60 * 5 * 1000) (clock g - start)); [left; by simplify_eq|].
  destruct (windows g) as [|a ws] eqn:Hws; [right; left; by simplify_eq|].
  right; right.
  destruct ((a :: ws) !! (window_index g `mod` length (a :: ws))%nat) as [w|] eqn:Hw;
    simpl in H; [|done].
  destruct (heap g !! w) as [o|] eqn:Ho; simpl in H; [|done].
  exists w, o. split_and!; [done|done|].
  destruct (get_token (token_bucket o)) as [[] b] eqn:Hb; simpl in H.
  - right. exists b. split_and!; [done|by destruct (instance o); simplify_eq|].
    destruct (instance o) eqn:Hi; simplify_eq; [right|left]; eauto.
  - left. by simplify_eq.
Qed.

Lemma holders_app ps qs : holders (ps ++ qs) = (holders ps + holders qs)%nat.
Proof. apply sum_list_with_app. Qed.

Lemma holders_insert ps j p p' :
  ps !! j = Some p →
  (holders (<[j := p']> ps) + holds p = holders ps + holds p')%nat.
Proof.
  unfold holders. revert j. induction ps as [|q ps IH]; intros j Hj; [done|].
  destruct j as [|j]; simpl in *.
  - simplify_eq. lia.
  - specialize (IH j Hj). lia.
Qed.

Lemma connected_keep g g' w :
  (∀ a, instance <$> heap g' !! a = instance <$> heap g !! a) →
  connected g w → connected g' w.
Proof.
  intros Hsame (o & h & Ho & Hi). specialize (Hsame w). rewrite Ho in Hsame.
  destruct (heap g' !! w) as [o'|] eqn:Ho'; simpl in Hsame; [|done].
  injection Hsame as Hsame. exists o', h. split; [done|congruence].
Qed.

Lemma live_of_same_names g g' a :
  same_names g g' → is_Some (heap g !! a) → is_Some (heap g' !! a).
Proof.
  intros Hn [o Ho]. specialize (Hn a). unfold name_of in Hn. rewrite Ho in Hn.
  destruct (heap g' !! a); [by eexists|done].
Qed.

(** What one turn of one job accounts for. *)
Lemma step_account r p g p' g' evs :
  step r p g = Some (p', g', evs) →
  window_index g' = (window_index g + length (selections evs))%nat
  ∧ (length (releases evs) + length (sleeps evs) + holds p'
     ≤ length (selections evs) + holds p)%nat
  ∧ (C_CUSTOM_KEY_MACHINE g = "MY_DEV" → alerts evs = [])
  ∧ (∀ w, connected g w → connected g' w ∧ w ∉ provisions evs)
  ∧ clock g ≤ clock g'.
Proof.
  intros H. destruct (in_try p) as [l|] eqn:Hl.
  { destruct (step_turn_quiet _ _ _ _ _ _ _ Hl H) as [Hi Hc Hp Hsl Hse Hd Hin].
    destruct (step_turn_ok _ _ _ _ _ _ _ Hl H) as [_ _ _ _ Hrel _ Hpast _].
    rewrite Hi, Hsl, Hse, Hp, Hc. split_and!; [simpl; lia| |done| |done].
    - assert (length (releases evs) + length (owed p') = 1)%nat as Hlen
        by (by rewrite <- length_app, Hrel).
      assert (holds p = 1%nat) as -> by (by destruct p).
      assert (holds p' ≤ length (owed p'))%nat; [|simpl; lia].
      unfold owed. destruct p'; simpl; try done; lia.
    - intros w Hw. split; [by eapply connected_keep|]. by intros ?%elem_of_nil. }
  destruct p; simplify_eq/=.
  - destruct r; simplify_eq/=. case_match; [|done].
    apply acquire_turn_cases in H
      as [(_ & -> & -> & ->)|[(_ & -> & -> & ->)|(w & o & Hw & Ho & Hcase)]].
    + split_and!; try done; try (simpl; lia).
      intros w Hw. split; [done|by intros ?%elem_of_nil].
    + split_and!; try done; try (simpl; lia).
      intros w Hw. split; [done|by intros ?%elem_of_nil].
    + destruct Hcase as [(-> & -> & ->)|(b & Hb & -> & Hcase)].
      * split_and!; try done; try (simpl; lia).
        intros w' Hw'. split; [done|by intros ?%elem_of_nil].
      * assert (Hkeep : ∀ w', connected g w' →
                  connected (set_heap (<[w:=with_bucket b o]> (heap g))
                               (set_window_index (S (window_index g)) g)) w').
        { intros w' (o' & h & Ho' & Hi). unfold connected. simpl.
          destruct (decide (w = w')) as [->|Hne].
          - rewrite lookup_insert_eq. simplify_eq. by eexists _, h.
          - rewrite lookup_insert_ne by done. by exists o', h. }
        destruct Hcase as [(Hi & -> & ->)|(Hi & -> & ->)].
        -- split_and!; try done; try (simpl; lia).
           intros w' Hw'. split; [by apply Hkeep|].
           simpl. intros ->%list_elem_of_singleton.
           destruct Hw' as (o' & h & Ho' & Hi'). congruence.
        -- split_and!; try done; try (simpl; lia).
           intros w' Hw'. split; [by apply Hkeep|]. by intros ?%elem_of_nil.
  - destruct r as [|[e|h]| | | | |]; simplify_eq/=.
    + split_and!; try done; try lia.
      intros w Hw. split; [done|by intros ?%elem_of_nil].
    + split_and!; try done; try lia.
      intros w Hw. split; [|by intros ?%elem_of_nil].
      destruct Hw as (o & h' & Ho & Hi). unfold connected. simpl.
      rewrite lookup_alter. case_decide; [subst|by exists o, h'].
      rewrite Ho. simpl. by eexists _, _.
  - destruct r; simplify_eq/=.
    split_and!; try done; try lia.
    intros w Hw. split; [done|by intros ?%elem_of_nil].
Qed.

Lemma selections_app evs1 evs2 :
  selections (evs1 ++ evs2) = selections evs1 ++ selections evs2.
Proof. apply omap_app. Qed.

Lemma provisions_app evs1 evs2 :
  provisions (evs1 ++ evs2) = provisions evs1 ++ provisions evs2.
Proof. apply omap_app. Qed.

Lemma account_refl s : account s s [].
Proof.
  split.
  - by rewrite app_nil_r.
  - simpl. lia.
  - simpl. lia.
  - done.
  - done.
  - intros w Hw. split; [done|by intros ?%elem_of_nil].
  - done.
  - done.
  - lia.
Qed.

Lemma account_trans s1 s2 s3 evs1 evs2 :
  account s1 s2 evs1 → account s2 s3 evs2 → account s1 s3 (evs1 ++ evs2).
Proof.
  intros [Ht1 Hi1 Hk1 Hm1 Hd1 Hc1 Hl1 Hp1 Hcl1] [Ht2 Hi2 Hk2 Hm2 Hd2 Hc2 Hl2 Hp2 Hcl2].
  split.
  - by rewrite Ht2, Ht1, (assoc_L (++)).
  - rewrite Hi2, Hi1, selections_app, length_app. lia.
  - unfold releases, sleeps in *. rewrite !filter_app, selections_app, !length_app. lia.
  - congruence.
  - intros Hdev. unfold alerts in *. rewrite filter_app, Hd1 by done.
    rewrite Hd2 by congruence. done.
  - intros w Hw. destruct (Hc1 w Hw) as [Hw1 Hn1]. destruct (Hc2 w Hw1) as [Hw2 Hn2].
    split; [done|]. rewrite provisions_app. intros [?|?]%elem_of_app; tauto.
  - intros a Ha. by apply Hl2, Hl1.
  - by etrans.
  - lia.
Qed.

Lemma spawn_is_a_wake path g :
  acquire_turn path (clock g) g = step Wake (PSleep path (clock g) (clock g)) g.
Proof. by rewrite step_wake. Qed.

Lemma sys_step_account a s s' :
  sys_step a s = Some s' → ∃ evs, account s s' evs.
Proof.
  intros H. pose proof (sys_step_shape _ _ _ H) as (Hpool & Hnames & _).
  apply pool_kept_or_filtered_sublist, sublist_subseteq in Hpool.
  assert (Hlive : ∀ b, is_Some (heap (glob s) !! b) → is_Some (heap (glob s') !! b))
    by (intros b; by apply live_of_same_names).
  destruct a as [path|j r|ms|w]; simpl in H.
  - destruct (acquire_turn path (clock (glob s)) (glob s)) as [[[p g] evs]|] eqn:Ha;
      simplify_eq/=.
    pose proof (acquire_turn_shape _ _ _ _ _ _ Ha) as (_ & _ & Hm & _).
    rewrite spawn_is_a_wake in Ha.
    apply step_account in Ha as (Hi & Hk & Hd & Hc & Hcl).
    exists evs. split; simpl; try done.
    rewrite holders_app. unfold holders at 2. simpl in *. lia.
  - destruct (jobs s !! j) as [p|] eqn:Hj; simplify_eq/=.
    destruct (step r p (glob s)) as [[[p' g] evs]|] eqn:Hst; simplify_eq/=.
    pose proof (step_shape _ _ _ _ _ _ Hst) as (_ & _ & Hm & _).
    apply step_account in Hst as (Hi & Hk & Hd & Hc & Hcl).
    exists evs. split; simpl; try done.
    pose proof (holders_insert _ _ _ p' Hj). lia.
  - simplify_eq/=. exists []. split; simpl in *.
    + by rewrite app_nil_r.
    + lia.
    + lia.
    + done.
    + done.
    + intros w Hw. split; [done|by intros ?%elem_of_nil].
    + done.
    + done.
    + lia.
  - simplify_eq/=. exists []. split; simpl in *.
    + by rewrite app_nil_r.
    + lia.
    + lia.
    + done.
    + done.
    + intros w' Hw. split; [|by intros ?%elem_of_nil].
      eapply connected_keep; [|done]. intros b. simpl. by apply instance_alter_bucket.
    + done.
    + done.
    + lia.
Qed.

Lemma run_account acts s s' :
  run acts s = Some s' → ∃ evs, account s s' evs.
Proof.
  revert s. induction acts as [|a acts IH]; intros s H; simplify_eq/=.
  { exists []. apply account_refl. }
  destruct (sys_step a s) as [s1|] eqn:Ha; simplify_eq/=.
  apply sys_step_account in Ha as [evs1 H1]. destruct (IH _ H) as [evs2 H2].
  exists (evs1 ++ evs2). by eapply account_trans.
Qed.

Lemma run_account_of acts s s' evs :
  run acts s = Some s' → trace s' = trace s ++ evs → account s s' evs.
Proof.
  intros H Ht. destruct (run_account _ _ _ H) as [evs0 Hacc].
  pose proof (acc_trace _ _ _ Hacc) as Ht0. rewrite Ht in Ht0.
  by apply app_inv_head in Ht0 as ->.
Qed.

Lemma well_formed_acquire path start g :
  well_formed g → is_Some (acquire_turn path start g).
Proof.
  intros Hwf. unfold acquire_turn. case_match; [by eexists|].
  destruct (windows g) as [|a ws] eqn:Hws; [by eexists|].
  destruct (lookup_lt_is_Some_2 (a :: ws) (window_index g `mod` length (a :: ws))%nat)
    as [w Hw].
  { apply Nat.mod_upper_bound. simpl. lia. }
  rewrite Hw. simpl.
  destruct (Hwf w) as [o Ho]; [rewrite Hws; by eapply list_elem_of_lookup_2|].
  rewrite Ho. simpl.
  destruct (get_token (token_bucket o)) as [[] b]; simpl; [|by eexists].
  destruct (instance o); by eexists.
Qed.

(** ** What runs of the whole system keep *)

(** X6.  On the developer machine ([C_CUSTOM_KEY_MACHINE] is "MY_DEV")
    no run of the system, whatever the jobs meet, sends an alert: all
    three calls of [utils.sendAlert] are behind the same guard. *)
Theorem no_alert_on_dev acts s s' evs :
  run acts s = Some s' →
  C_CUSTOM_KEY_MACHINE (glob s) = "MY_DEV" →
  trace s' = trace s ++ evs →
  alerts evs = [].
Proof.
  intros H Hdev Ht. by apply (acc_dev _ _ _ (run_account_of _ _ _ _ H Ht)).
Qed.

Lemma no_alert_on_dev_witness :
  alerts (trace (after dev_job (idle (one_window "MY_DEV")))) = [].
Proof.
  apply (no_alert_on_dev dev_job (idle (one_window "MY_DEV"))
           (after dev_job (idle (one_window "MY_DEV")))).
  - vm_compute. reflexivity.
  - reflexivity.
  - reflexivity.
Defined.

(** X7.  [window_index] is never reset, not by an eviction either: over
    any run it grows by exactly the number of selections made, one per
    attempt that reaches line 284. *)
Theorem cursor_counts_selections acts s s' evs :
  run acts s = Some s' →
  trace s' = trace s ++ evs →
  window_index (glob s') = (window_index (glob s) + length (selections evs))%nat.
Proof.
  intros H Ht. by apply (acc_index _ _ _ (run_account_of _ _ _ _ H Ht)).
Qed.

Lemma cursor_counts_selections_witness :
  let s1 := after evict_028_then_serve (idle (two_windows unset)) in
  window_index (glob (after two_spawns s1))
  = (window_index (glob s1) + 2)%nat.
Proof.
  intros s1.
  apply (cursor_counts_selections two_spawns s1 (after two_spawns s1)
           [EvSelect 1%nat; EvProvision 1%nat; EvSelect 1%nat; EvProvision 1%nat]).
  - vm_compute. reflexivity.
  - vm_compute. reflexivity.
Defined.

(** X8.  Tokens are never given back twice, nor without having been
    taken.  Every selection ends in a sleep (the token was refused) or
    in a grant; at any moment of any run started with no job, the
    releases made so far plus the jobs that still hold a token do not
    exceed the grants. *)
Theorem releases_never_outnumber_grants acts g s' :
  run acts (idle g) = Some s' →
  (length (releases (trace s')) + holders (jobs s')
   ≤ length (selections (trace s')) - length (sleeps (trace s')))%nat.
Proof.
  intros H.
  pose proof (acc_tokens _ _ _ (run_account_of acts (idle g) s' (trace s') H eq_refl)) as Hk.
  change (holders (jobs (idle g))) with 0%nat in Hk. lia.
Qed.

Lemma releases_never_outnumber_grants_witness :
  let s' := after (full_job ++ two_more) (idle (two_windows unset)) in
  (length (releases (trace s')) + holders (jobs s')
   ≤ length (selections (trace s')) - length (sleeps (trace s')))%nat.
Proof.
  intros s'. apply (releases_never_outnumber_grants (full_job ++ two_more) (two_windows unset)).
  vm_compute. reflexivity.
Defined.

(** X9.  The selection of line 284 never fails on its index and never
    meets a dead object: if every window of the pool is a live object,
    this stays so over any run, and at every moment a new request can
    take its turn of the acquisition loop (ending in the timeout, the
    division by zero of the empty pool, a sleep or a grant). *)
Theorem well_formed_never_stuck acts s s' path :
  run acts s = Some s' →
  well_formed (glob s) →
  well_formed (glob s') ∧ is_Some (sys_step (Spawn path) s').
Proof.
  intros H Hwf. destruct (run_account _ _ _ H) as [evs Hacc].
  assert (Hwf' : well_formed (glob s')).
  { intros w Hw. apply (acc_live _ _ _ Hacc), Hwf. by apply (acc_pool _ _ _ Hacc). }
  split; [done|]. simpl.
  destruct (well_formed_acquire path (clock (glob s')) (glob s') Hwf') as [[[p g] evs'] ->].
  by eexists.
Qed.

Lemma well_formed_never_stuck_witness :
  is_Some (sys_step (Spawn "d.png") (after timeout_on_028 (idle (two_windows unset)))).
Proof.
  apply (well_formed_never_stuck timeout_on_028 (idle (two_windows unset))).
  - vm_compute. reflexivity.
  - intros w Hw. simpl in Hw.
    apply elem_of_cons in Hw as [->|Hw]; [by eexists|].
    apply list_elem_of_singleton in Hw as ->. by eexists.
Defined.

(** X10.  Once a window has its browser connection,
    [window['instance']] is never set back to [None], and every job
    that is given the window from then on goes straight to the new page:
    no turn of the acquisition loop sends it to the connection of
    line 297.  (A job that had found [instance] absent before may still
    connect and overwrite the handle.) *)
Theorem connected_window_stays_connected acts s s' w :
  run acts s = Some s' →
  connected (glob s) w →
  connected (glob s') w
  ∧ ∀ path start p g' evs l,
      acquire_turn path start (glob s') = Some (p, g', evs) →
      window_ l = w → p ≠ PConnect l.
Proof.
  intros H Hw. destruct (run_account _ _ _ H) as [evs0 Hacc].
  destruct (acc_connected _ _ _ Hacc w Hw) as [Hw' _]. split; [done|].
  intros path start p g' evs l Hturn Hl ->.
  apply acquire_turn_cases in Hturn
    as [(_ & ? & _)|[(_ & ? & _)|(w0 & o & _ & Ho & Hcase)]]; [done|done|].
  destruct Hcase as [(? & _)|(b & _ & _ & [(Hi & Hp & _)|(_ & ? & _)])]; [done| |done].
  injection Hp as ->. simpl in Hl. subst w0.
  destruct Hw' as (o' & h & Ho' & Hi'). congruence.
Qed.

Lemma connected_window_stays_connected_witness :
  let s1 := after full_job (idle (two_windows unset)) in
  connected (glob (after two_more s1)) 0%nat.
Proof.
  intros s1.
  apply (connected_window_stays_connected two_more s1 (after two_more s1)).
  - vm_compute. reflexivity.
  - eexists _, _. split; [vm_compute; reflexivity|reflexivity].
Defined.

(** * The response, the parser, the downloads *)

Lemma job_run_done o evs p : job_run (PDone o) evs p → p = PDone o ∧ evs = [].
Proof. inversion 1; simplify_eq/=; done. Qed.

Lemma spawned_job_genuine path g p0 g0 evs0 evs o :
  acquire_turn path (clock g) g = Some (p0, g0, evs0) →
  job_run p0 evs (PDone o) →
  genuine o.
Proof.
  intros Hacq Hrun.
  apply acquire_turn_cases in Hacq
    as [(_ & -> & _)|[(_ & -> & _)|(w & ob & _ & _ & Hcase)]].
  - by apply job_run_done in Hrun as [[= ->] _].
  - by apply job_run_done in Hrun as [[= ->] _].
  - eapply job_run_genuine; [done| |done].
    destruct Hcase as [(-> & _)|(b & _ & _ & [(_ & -> & _)|(_ & -> & _)])]; done.
Qed.

(** X11.  Whatever a job meets between its first turn of the
    acquisition loop and its end, the response that [process_img] builds
    carries one of eight codes: 0, the catch-all 1000, or one of the six
    codes of the [BizException]s raised in the file; and it carries
    [data] exactly when the code is 0. *)
Theorem job_response_codes fetch path g p0 g0 evs0 evs o :
  acquire_turn path (clock g) g = Some (p0, g0, evs0) →
  job_run p0 evs (PDone o) →
  code (process_img fetch o) ∈ [0; 1000; 1003; 1004; 1005; 1006; 1100; 1101]
  ∧ (code (process_img fetch o) = 0 ↔ is_Some (data (process_img fetch o))).
Proof.
  intros Hacq Hrun. pose proof (spawned_job_genuine _ _ _ _ _ _ _ Hacq Hrun) as Hg.
  destruct o as [u|e]; simpl in *.
  - unfold download_image. pose proof (download_from_spec fetch 0 u) as Hd.
    destruct (download_from fetch 0 u) as [e|imgs].
    + destruct Hd as [m ->]. simpl. split.
      * repeat first [apply list_elem_of_here | apply list_elem_of_further].
      * split; [done|]. by intros [? ?].
    + simpl. split; [apply list_elem_of_here|]. split; [by eexists|done].
  - destruct e; simpl in *;
      try (split; [apply list_elem_of_further, list_elem_of_here
                  |split; [done|by intros [? ?]]]).
    split; [by apply list_elem_of_further, list_elem_of_further|].
    split; [|by intros [? ?]].
    intros ->. rewrite !elem_of_cons, elem_of_nil in Hg. intuition discriminate.
Qed.

Lemma job_response_codes_witness :
  code (process_img saved (Return [Some "https://p.example/1.png"]))
  ∈ [0; 1000; 1003; 1004; 1005; 1006; 1100; 1101].
Proof.
  eapply (job_response_codes saved "a.png" (two_windows unset)).
  - reflexivity.
  - eapply (job_run_turn _ (Connected (inr 11%nat)) (two_windows unset)); [reflexivity|].
    eapply (job_run_turn _ (PageOpened None) (two_windows unset)); [reflexivity|].
    eapply (job_run_turn _ (CreditResponse credit_ok (FileImage 1080 1920))
              (two_windows unset)); [reflexivity|].
    eapply (job_run_turn _ (Interacted InteractOk) (two_windows unset)); [reflexivity|].
    eapply (job_run_turn _ (PaintingResponse (Reply 200 (inr one_image)))
              (two_windows unset)); [reflexivity|].
    eapply (job_run_turn _ (PageClosed None) (two_windows unset)); [reflexivity|].
    apply job_run_here.
Defined.

Lemma download_from_ok fetch index image_urls inner_imgs :
  download_from fetch index image_urls = inr inner_imgs →
  length inner_imgs = length image_urls
  ∧ ∀ i u, image_urls !! i = Some u →
      ∃ img, inner_imgs !! i = Some img ∧ fetch (index + i)%nat u = inr img.
Proof.
  revert index inner_imgs. induction image_urls as [|u0 us IH]; intros index imgs H;
    simpl in H.
  { simplify_eq. split; [done|]. intros i u Hi. by rewrite lookup_nil in Hi. }
  destruct (fetch index u0) as [f|img0] eqn:Hf; [done|].
  destruct (download_from fetch (S index) us) as [e|imgs'] eqn:Hd; simplify_eq.
  destruct (IH _ _ Hd) as [Hlen Hall]. split; [simpl; by rewrite Hlen|].
  intros [|i] u Hi; simpl in *.
  - simplify_eq. exists img0. by rewrite Nat.add_0_r.
  - destruct (Hall i u Hi) as (img & ? & ?). exists img.
    by replace (index + S i)%nat with (S index + i)%nat by lia.
Qed.

Lemma download_from_fails fetch index image_urls :
  (∃ e, download_from fetch index image_urls = inl e)
  ↔ ∃ i u f, image_urls !! i = Some u ∧ fetch (index + i)%nat u = inl f.
Proof.
  revert index. induction image_urls as [|u0 us IH]; intros index; simpl.
  { split; [by intros [? ?]|]. intros (i & u & f & Hi & _). by rewrite lookup_nil in Hi. }
  destruct (fetch index u0) as [f0|img0] eqn:Hf.
  - split; [|by eexists]. intros _. exists 0%nat, u0, f0. by rewrite Nat.add_0_r.
  - specialize (IH (S index)).
    destruct (download_from fetch (S index) us) as [e|imgs] eqn:Hd.
    + split; [|by eexists]. intros _.
      destruct (proj1 IH) as (i & u & f & Hi & Hfi); [by eexists|].
      exists (S i), u, f. split; [done|].
      by replace (index + S i)%nat with (S index + i)%nat by lia.
    + split; [by intros [? ?]|]. intros (i & u & f & Hi & Hfi).
      destruct i as [|i]; simpl in Hi.
      * simplify_eq. rewrite Nat.add_0_r in Hfi. congruence.
      * destruct (proj2 IH) as [e He]; [|done].
        exists i, u, f. split; [done|].
        by replace (S index + i)%nat with (index + S i)%nat by lia.
Qed.

(** X12.  [download_image] is all or nothing.  It returns a list
    exactly as long as the list of URLs, its i-th entry being what the
    i-th download (numbered from 0) saved; it fails exactly when some
    download fails, and then always with a [BizException] of code 1004,
    whatever the downloads before it saved. *)
Theorem download_image_all_or_nothing fetch image_urls :
  (∀ inner_imgs, download_image fetch image_urls = inr inner_imgs →
     length inner_imgs = length image_urls
     ∧ ∀ i u, image_urls !! i = Some u →
         ∃ img, inner_imgs !! i = Some img ∧ fetch i u = inr img)
  ∧ ((∃ e, download_image fetch image_urls = inl e)
     ↔ ∃ i u f, image_urls !! i = Some u ∧ fetch i u = inl f)
  ∧ (∀ e, download_image fetch image_urls = inl e →
       ∃ m, e = BizException 1004 m).
Proof.
  unfold download_image. split_and!.
  - intros imgs H. by apply (download_from_ok fetch 0).
  - apply (download_from_fails fetch 0).
  - intros e H. pose proof (download_from_spec fetch 0 image_urls) as Hd.
    by rewrite H in Hd.
Qed.

Lemma download_image_all_or_nothing_witness :
  ∃ e, download_image saved [Some "https://p.example/1.png"; None] = inl e.
Proof.
  destruct (download_image_all_or_nothing saved [Some "https://p.example/1.png"; None])
    as (_ & H & _).
  apply H. exists 1%nat, None, (Failure "Invalid URL"). split; reflexivity.
Defined.



(** * More of [open_window] *)

(** X14.  Busy answers are passed over: as long as the attempts that
    fail with the busy message, with their seconds of sleep, fit into
    the 300 s, [open_window] goes on to the next answer, having slept
    once per failed attempt. *)
Theorem open_window_skips_busy attempts script start now sleeps :
  Forall (λ tr, busy tr.2) attempts →
  now + spent attempts - start ≤ 300 * 1000 →
  open_window (attempts ++ script) start now sleeps
  = open_window script start (now + spent attempts) (sleeps + length attempts).
Proof.
  revert now sleeps. induction attempts as [|[took r] attempts IH];
    intros now sleeps Hall Hfit; simpl.
  { f_equal; lia. }
  apply Forall_cons in Hall as [(e & He & Hb) Hall]. simpl in He, Hfit.
  assert (0 ≤ spent attempts) as Hpos.
  { clear. induction attempts as [|[t r] attempts IH]; simpl; lia. }
  rewrite He, Hb.
  destruct (Z.ltb_spec (300 * 1000) (now + Z.of_nat took - start)); [lia|].
  rewrite IH by (done || lia). f_equal; lia.
Qed.

Lemma open_window_skips_busy_witness :
  open_window ([(40%nat, closing); (40%nat, closing)] ++ [(900%nat, opened)]) 0 0 0
  = open_window [(900%nat, opened)] 0 2080 2.
Proof.
  apply (open_window_skips_busy [(40%nat, closing); (40%nat, closing)]
           [(900%nat, opened)] 0 0 0%nat).
  - repeat constructor; (eexists; split; [reflexivity|vm_compute; reflexivity]).
  - vm_compute. discriminate.
Defined.

(** X15.  What [open_window] gives back comes from one answer of the
    provisioner: a URL is "http://" followed by the non-empty address of
    an answer that reported success, an error is the error of one
    attempt.  A success without an address is not retried but raised as
    the [TypeError] of the concatenation.  And the loop only goes on
    past answers that failed with the busy message. *)
Theorem open_window_result_origin script start now sleeps :
  (∀ url t k, open_window script start now sleeps = Some (inr url, t, k) →
     ∃ took text address,
       (took, OpenBody text true (Some address)) ∈ script
       ∧ address ≠ EmptyString ∧ url = "http://" +:+ address)
  ∧ (∀ e t k, open_window script start now sleeps = Some (inl e, t, k) →
       ∃ took r, (took, r) ∈ script ∧ open_attempt r = inl e)
  ∧ (∀ took text rest,
       script = (took, OpenBody text true None) :: rest →
       open_window script start now sleeps = Some (inl TypeError, now + Z.of_nat took, sleeps))
  ∧ (open_window script start now sleeps = None → Forall (λ tr, busy tr.2) script).
Proof.
  revert now sleeps. induction script as [|[took r] script IH]; intros now sleeps.
  { split_and!; [done|done|done|by intros _]. }
  destruct (IH (now + Z.of_nat took + 1 * 1000) (S sleeps)) as (IHu & IHe & _ & IHn).
  simpl. destruct (open_attempt r) as [e0|url0] eqn:Hr.
  - destruct (contains busy_message (str e0)) eqn:Hb.
    + destruct (Z.ltb_spec (300 * 1000) (now + Z.of_nat took - start)) as [Hlate|Hearly].
      * split_and!; [done| | |done].
        -- intros e t k [= <- <- <-]. exists took, r. split; [apply list_elem_of_here|done].
        -- intros took' text rest [= -> -> ->]. simpl in Hr. by simplify_eq.
      * split_and!.
        -- intros url t k H. destruct (IHu _ _ _ H) as (took' & text & a & Hin & ?).
           exists took', text, a. split; [by apply list_elem_of_further|done].
        -- intros e t k H. destruct (IHe _ _ _ H) as (took' & r' & Hin & ?).
           exists took', r'. split; [by apply list_elem_of_further|done].
        -- intros took' text rest [= -> -> ->].
           simpl in Hr; simplify_eq; vm_compute in Hb; discriminate Hb.
        -- intros H. constructor; [by exists e0|by apply IHn].
    + split_and!; [done| | |done].
      * intros e t k [= <- <- <-]. exists took, r. split; [apply list_elem_of_here|done].
      * intros took' text rest [= -> -> ->]. simpl in Hr. by simplify_eq.
  - split_and!; [|done| |done].
    + intros url t k [= <- <- <-].
      destruct r as [e|text success [address|]]; simpl in Hr; [done| |];
        destruct success; simpl in Hr; try done.
      destruct address as [|c address]; [done|]. simplify_eq.
      exists took, text, (String c address). split; [apply list_elem_of_here|done].
    + intros took' text rest [= -> -> ->]. simpl in Hr. done.
Qed.

Lemma open_window_result_origin_witness :
  open_window [(25%nat, OpenBody "{'success': true, 'data': {}}" true None)] 0 0 0
  = Some (inl TypeError, 25, 0%nat).
Proof.
  destruct (open_window_result_origin
              [(25%nat, OpenBody "{'success': true, 'data': {}}" true None)] 0 0 0)
    as (_ & _ & H & _).
  by apply (H 25%nat "{'success': true, 'data': {}}" []).
Defined.

(** * More of the acquisition loop *)

Lemma step_past_sleep r p g p' g' evs :
  past_sleep p → step r p g = Some (p', g', evs) → past_sleep p'.
Proof.
  intros Hp H. destruct (in_try p) as [l|] eqn:Hl.
  { pose proof (turn_past _ _ _ _ _ (step_turn_ok _ _ _ _ _ _ _ Hl H)). by destruct p'. }
  destruct p; simplify_eq/=; try done.
  - by destruct r as [|[e|h]| | | | |]; simplify_eq/=.
  - by destruct r; simplify_eq/=.
Qed.

Lemma job_run_past_sleep p evs p' :
  job_run p evs p' → past_sleep p → past_sleep p'.
Proof.
  induction 1 as [|p r g p1 g1 e1 e2 p2 Hst Hrun IH]; [done|].
  intros Hp. by eapply IH, step_past_sleep.
Qed.

(** X16.  The deadline of a waiting job is the one taken at its entry:
    however often the job is refused, and whatever the other jobs do in
    between, it sleeps with the same [start_at_lock] and the same input
    path, and each sleep is due at least 5 s after the one before. *)
Theorem sleeping_job_keeps_deadline path start wake evs path' start' wake' :
  job_run (PSleep path start wake) evs (PSleep path' start' wake') →
  path' = path ∧ start' = start
  ∧ ((evs = [] ∧ wake' = wake) ∨ wake + 5 * 1000 ≤ wake').
Proof.
  remember (PSleep path start wake) as p eqn:Hp.
  remember (PSleep path' start' wake') as q eqn:Hq.
  intros Hrun. revert path start wake Hp Hq.
  induction Hrun as [p|p r g p1 g1 e1 e2 p2 Hst Hrun IH]; intros path start wake Hp Hq.
  { simplify_eq. split_and!; try done. by left. }
  subst p p2. destruct r; simplify_eq/=.
  destruct (Z.leb_spec wake (clock g)) as [Hwake|]; [|done].
  apply acquire_turn_cases in Hst
    as [(_ & -> & _)|[(_ & -> & _)|(w & o & _ & _ & Hcase)]].
  - by apply job_run_past_sleep in Hrun.
  - by apply job_run_past_sleep in Hrun.
  - destruct Hcase as [(-> & _)|(b & _ & _ & [(_ & -> & _)|(_ & -> & _)])].
    + destruct (IH path start (clock g + 5 * 1000) eq_refl eq_refl) as (-> & -> & Hw).
      split_and!; try done. right. destruct Hw as [[_ ->]|Hw]; lia.
    + by apply job_run_past_sleep in Hrun.
    + by apply job_run_past_sleep in Hrun.
Qed.

Lemma sleeping_job_keeps_deadline_witness :
  job_run (PSleep "a.png" 0 5000)
          ([EvSelect 2%nat; EvSleep (5 * 1000)] ++ []) (PSleep "a.png" 0 12000)
  ∧ 5000 + 5 * 1000 ≤ 12000.
Proof.
  assert (Hrun : job_run (PSleep "a.png" 0 5000)
                   ([EvSelect 2%nat; EvSleep (5 * 1000)] ++ []) (PSleep "a.png" 0 12000)).
  { eapply (job_run_turn _ Wake (set_clock 7000 busy_pool)); [reflexivity|].
    apply job_run_here. }
  split; [exact Hrun|].
  destruct (sleeping_job_keeps_deadline _ _ _ _ _ _ _ Hrun) as (_ & _ & [[Hnil _]|Hw]);
    [discriminate Hnil|exact Hw].
Defined.

(** * Startup *)

Example call_main_runs :
  (λ r, (ready <$> (r.1 !! 1%nat), r.2))
    <$> call_main (mkBucket 4 4) all_listed closes_fine opens_fine [0; 1; 2]%nat declared
  = Some (Some (Some (mkWindow "即梦023" "id-023" "http://127.0.0.1/id-023"
                               (mkBucket 4 4) None)), None).
Proof. vm_compute. reflexivity. Qed.

Lemma register_sound h ws window_map n a :
  register h ws window_map !! n = Some a →
  window_map !! n = Some a ∨ raw_name <$> h !! a = Some n.
Proof.
  revert window_map. induction ws as [|a0 ws IH]; intros window_map H; simpl in H;
    [by left|].
  apply IH in H as [H|H]; [|by right].
  destruct (h !! a0) as [o|] eqn:Ho; [|by left].
  destruct (decide (raw_name o = n)) as [<-|Hne].
  - rewrite lookup_insert_eq in H. simplify_eq. right. by rewrite Ho.
  - rewrite lookup_insert_ne in H by done. by left.
Qed.

(** What lines 454-459 do to the heap. *)
Lemma adopt_all_spec fresh window_map results h :
  (∀ n a, window_map !! n = Some a → raw_name <$> h !! a = Some n) →
  let h' := foldl (adopt fresh window_map) h results in
  (∀ a, raw_name <$> h' !! a = raw_name <$> h !! a)
  ∧ ∀ a o', h' !! a = Some o' →
      h !! a = Some o'
      ∨ ∃ id, (id, raw_name o') ∈ results ∧ raw_window_id o' = Some id
              ∧ raw_token_bucket o' = Some fresh ∧ raw_instance o' = Some None.
Proof.
  intros Hm. induction results as [|[id nm] results [IHn IHa]] using rev_ind; simpl.
  { split; [done|]. intros a o' H. by left. }
  rewrite foldl_app. simpl. unfold adopt at 1 3. simpl.
  destruct (window_map !! nm) as [a0|] eqn:Hnm.
  - split.
    + intros a. rewrite lookup_alter. case_decide; [subst|apply IHn].
      rewrite <- IHn. by destruct (foldl _ h results !! a).
    + intros a o'. rewrite lookup_alter. case_decide as Ha.
      * subst a0. destruct (foldl _ h results !! a) as [o|] eqn:Ho; [|done].
        simpl. intros [= <-]. right. exists id. simpl. split_and!; try done.
        apply elem_of_app. right. apply list_elem_of_singleton.
        pose proof (Hm _ _ Hnm) as Hname. rewrite <- IHn, Ho in Hname.
        simpl in Hname. by simplify_eq.
      * intros H. destruct (IHa _ _ H) as [?|(id' & Hin & ?)]; [by left|].
        right. exists id'. split; [|done]. apply elem_of_app. by left.
  - split; [done|]. intros a o' H.
    destruct (IHa _ _ H) as [?|(id' & Hin & ?)]; [by left|].
    right. exists id'. split; [|done]. apply elem_of_app. by left.
Qed.

(** What lines 460-463 do to the heap. *)
Lemma open_all_spec closes opens ws h h' r :
  open_all closes opens ws h = Some (h', r) →
  (∀ a, but_url <$> h' !! a = but_url <$> h !! a)
  ∧ (r = None → ∀ a, a ∈ ws ∨ reopened opens h a → reopened opens h' a).
Proof.
  revert h. induction ws as [|a0 ws IH]; intros h H; simpl in H.
  { simplify_eq. split; [done|]. intros _ a [Ha|Ha]; [by apply elem_of_nil in Ha|done]. }
  destruct (h !! a0) as [o|] eqn:Ho; simpl in H; [|done].
  destruct (raw_window_id o) as [id|] eqn:Hid; [|by simplify_eq].
  destruct (close_window (closes id)); [by simplify_eq|].
  destruct (open_window (opens id) 0 0 0) as [[[[e|url] t] k]|] eqn:Hopen; simpl in H;
    [by simplify_eq| |done].
  destruct (IH _ H) as [IHb IHr]. split.
  - intros a. rewrite IHb, lookup_insert. case_decide; [subst|done]. by rewrite Ho.
  - intros -> a Ha. apply IHr; [done|].
    destruct (decide (a = a0)) as [->|Hne].
    + right. exists (set_url url o), id, url, t, k. by rewrite lookup_insert_eq.
    + destruct Ha as [Ha|(o1 & id1 & url1 & t1 & k1 & Ho1 & ?)].
      * left. apply elem_of_cons in Ha as [?|?]; done.
      * right. exists o1, id1, url1, t1, k1. by rewrite lookup_insert_ne.
Qed.



(** X18.  When [call_main] gets through, starting from a pool whose
    dicts have no [window_id] yet, every window of the pool is ready to
    serve: it keeps its name, its [window_id] is an id that the service
    listed under that name, its [debug_url] is the URL that
    [open_window] returned for that id, it has the bucket built by
    [rates.TokenBucket(4, 4)], and its [instance] is [None]. *)
Theorem call_main_makes_windows_ready fresh listing closes opens ws h h' :
  (∀ a, a ∈ ws → ∃ o, h !! a = Some o ∧ raw_window_id o = None) →
  call_main fresh listing closes opens ws h = Some (h', None) →
  ∃ results, list_window listing = inr results
  ∧ ∀ a, a ∈ ws →
      ∃ o o' id url t k,
        h !! a = Some o ∧ h' !! a = Some o'
        ∧ (id, raw_name o) ∈ results
        ∧ open_window (opens id) 0 0 0 = Some (inr url, t, k)
        ∧ ready o' = Some (mkWindow (raw_name o) id url fresh None).
Proof.
  intros Hdecl Hmain. unfold call_main in Hmain.
  destruct (list_window listing) as [e|results] eqn:Hlist; [done|].
  exists results. split; [done|]. intros a Ha.
  destruct (Hdecl a Ha) as (o & Ho & Hid).
  destruct (adopt_all_spec fresh (register h ws ∅) results h) as [Hn Had].
  { intros n b Hb. apply register_sound in Hb as [Hb|Hb]; [|done].
    by rewrite lookup_empty in Hb. }
  destruct (open_all_spec _ _ _ _ _ _ Hmain) as [Hb Hr].
  destruct (Hr eq_refl a (or_introl Ha)) as (o' & id & url & t & k & Ho' & Hid' & Hurl & Hopen).
  specialize (Hb a). rewrite Ho' in Hb.
  destruct (foldl (adopt fresh (register h ws ∅)) h results !! a) as [o2|] eqn:Ho2;
    [|done].
  simpl in Hb. injection Hb as Hb1 Hb2 Hb3 Hb4.
  specialize (Hn a). rewrite Ho2, Ho in Hn. simpl in Hn. injection Hn as Hn.
  destruct (Had _ _ Ho2) as [Hsame|(id2 & Hin & Hid2 & Hbucket & Hinst)].
  { rewrite Ho in Hsame. simplify_eq. congruence. }
  exists o, o', id, url, t, k. split_and!; try done.
  - rewrite <- Hn. replace id with id2 by congruence. done.
  - unfold ready. rewrite Hid', Hurl, Hb3, Hb4, Hbucket, Hinst. simpl.
    by rewrite Hb1, Hn.
Qed.

Lemma call_main_makes_windows_ready_witness :
  ∃ h', call_main (mkBucket 4 4) all_listed closes_fine opens_fine [0; 1; 2]%nat declared
        = Some (h', None)
  ∧ ∃ o', h' !! 2%nat = Some o'
          ∧ ready o' = Some (mkWindow "即梦022" "id-022" "http://127.0.0.1/id-022"
                                      (mkBucket 4 4) None).
Proof.
  destruct (call_main (mkBucket 4 4) all_listed closes_fine opens_fine [0; 1; 2]%nat declared)
    as [[h' [e|]]|] eqn:Hmain; [vm_compute in Hmain; discriminate Hmain| |
                                vm_compute in Hmain; discriminate Hmain].
  exists h'. split; [reflexivity|].
  destruct (call_main_makes_windows_ready (mkBucket 4 4) all_listed closes_fine opens_fine
              [0; 1; 2]%nat declared h') as (results & Hlist & Hall); [|exact Hmain|].
  - intros a Ha. rewrite !elem_of_cons, elem_of_nil in Ha.
    destruct Ha as [->|[->|[->|[]]]]; by eexists.
  - destruct (Hall 2%nat) as (o & o' & id & url & t & k & Ho & Ho' & Hin & Hopen & Hready).
    { by apply list_elem_of_further, list_elem_of_further, list_elem_of_here. }
    exists o'. split; [done|]. rewrite Hready.
    vm_compute in Ho. injection Ho as <-. vm_compute in Hlist. injection Hlist as <-.
    simpl in Hin. rewrite !elem_of_cons, elem_of_nil in Hin.
    destruct Hin as [Hin|[Hin|[Hin|[Hin|[]]]]]; try discriminate Hin.
    injection Hin as ->. vm_compute in Hopen. injection Hopen as <- _ _. reflexivity.
Defined.

(** * Alerts *)

Ltac alert_done :=
  unfold alert_matches; simpl;
  first [ by left
        | right; eexists _, _; split_and!; [done|done|];
          repeat first [apply list_elem_of_here | apply list_elem_of_further] ].

Lemma credit_turn_alert l r f g p g' evs :
  credit_turn l r f g = (p, g', evs) → alert_matches evs (result p).
Proof.
  unfold credit_turn, finally_, sendAlert_unless_dev. intros H.
  repeat case_match; simplify_eq; alert_done.
Qed.

Lemma painting_turn_alert l r g p g' evs :
  painting_turn l r g = (p, g', evs) → alert_matches evs (result p).
Proof.
  unfold painting_turn, painting_error, finally_. intros H.
  repeat case_match; simplify_eq; alert_done.
Qed.

Lemma step_alert r p g p' g' evs :
  step r p g = Some (p', g', evs) → alert_matches evs (result p').
Proof.
  intros H. destruct p; simpl in H.
  - destruct r; simplify_eq/=. case_match; [|done].
    apply acquire_turn_shape in H as (_ & _ & _ & _ & Ha & _). by left.
  - destruct r as [|[e|h]| | | | |]; simplify_eq/=; by left.
  - destruct r as [| |[e|]| | | |]; simplify_eq/=; [|by left].
    unfold finally_ in H. simpl in H. simplify_eq/=. by left.
  - destruct r; simplify_eq/=. by eapply credit_turn_alert.
  - destruct r as [| | | |[| |e]| |]; simplify_eq/=; try by left.
    unfold finally_ in H. case_match; simplify_eq/=; by left.
  - destruct r as [| | | | |[e|]|]; simplify_eq/=;
      unfold finally_, sendAlert_unless_dev in H;
      repeat case_match; simplify_eq/=; alert_done.
  - destruct r; simplify_eq/=. by eapply painting_turn_alert.
  - destruct r; simplify_eq/=. by left.
  - done.
Qed.

Lemma job_run_after_result p o evs p' :
  result p = Some o → job_run p evs p' → evs = [] ∧ result p' = Some o.
Proof.
  intros Ho Hrun. revert o Ho.
  induction Hrun as [p|p r g p1 g1 e1 e2 p2 Hst Hrun IH]; intros o Ho; [done|].
  destruct p; simplify_eq/=; destruct r; simplify_eq/=.
  by destruct (IH o eq_refl) as [-> ?].
Qed.

(** X19.  A job sends at most one alert, and only on its way out with
    one of the errors 1100, 1006 or 1101; the alert carries the message
    of that error.  No other end of a job, success included, comes with
    an alert. *)
Theorem alert_only_with_eviction_error p evs o :
  result p = None →
  job_run p evs (PDone o) →
  alerts evs = []
  ∨ ∃ c m, alerts evs = [EvAlert m] ∧ o = Raise (BizException c m)
           ∧ c ∈ [1006; 1100; 1101].
Proof.
  intros Hp Hrun. remember (PDone o) as q eqn:Hq. revert Hp Hq.
  induction Hrun as [p|p r g p1 g1 e1 e2 p2 Hst Hrun IH]; intros Hp Hq.
  { subst. done. }
  pose proof (step_alert _ _ _ _ _ _ Hst) as Hal.
  destruct (result p1) as [o1|] eqn:H1.
  - destruct (job_run_after_result _ _ _ _ H1 Hrun) as [-> Hres]. subst p2.
    simpl in Hres. simplify_eq. rewrite app_nil_r.
    destruct Hal as [?|(c & m & ? & [= ->] & ?)]; [by left|right; by exists c, m].
  - destruct Hal as [Hal|(c & m & _ & ? & _)]; [|done].
    unfold alerts in *. rewrite filter_app, Hal. by apply IH.
Qed.

Lemma alert_only_with_eviction_error_witness :
  alerts [EvAlert (bracket "即梦028" "积分不足"); EvRelease 0%nat] = []
  ∨ ∃ c m,
      alerts [EvAlert (bracket "即梦028" "积分不足"); EvRelease 0%nat] = [EvAlert m]
      ∧ Raise (BizException 1100 (bracket "即梦028" "积分不足")) = Raise (BizException c m)
      ∧ c ∈ [1006; 1100; 1101].
Proof.
  apply (alert_only_with_eviction_error (PCredit job_on_028)
           (([EvAlert (bracket "即梦028" "积分不足"); EvRelease 0%nat]) ++ [] ++ [])).
  - reflexivity.
  - eapply (job_run_turn _ (CreditResponse low_credit FileMissing) (two_windows unset));
      [reflexivity|].
    eapply (job_run_turn _ (PageClosed None) (two_windows unset)); [reflexivity|].
    apply job_run_here.
Defined.

(** * The permit held on an evicted window *)

(** C6.  The claim: the pool only shrinks, an evicted window is never
    returned again, and a permit already held on it is still released.
    The first two parts hold of the code (see [pool_only_shrinks]).
    The last one is broken by the defect of C1: a job that was granted
    its token and is still at the lazy connection of line 297 is
    outside the [try].  Here two requests are granted tokens of the
    only window; the first connects, finds the credit too low and
    evicts the window; then the connection of the second fails.  The
    pool is empty, both jobs are over, two tokens were granted and one
    was released: the permit held on the evicted window is lost. *)
Theorem evicted_window_permit_lost :
  ∃ s' e,
    run evicted_then_refused (idle (one_window unset)) = Some s'
    ∧ windows (glob s') = []
    ∧ jobs s' = [PDone (Raise (BizException 1100 (bracket "即梦028" "积分不足")));
                 PDone (Raise e)]
    ∧ selections (trace s') = [0%nat; 0%nat]
    ∧ occurrences (EvSleep (5 * 1000)) (trace s') = 0%nat
    ∧ releases (trace s') = [EvRelease 0%nat]
    ∧ token_bucket <$> heap (glob s') !! 0%nat = Some (mkBucket 4 3).
Proof.
  eexists _, _. split; [vm_compute; reflexivity|]. by vm_compute.
Qed.

(** * Round robin over any run *)

(** What one action selects and grants. *)
Lemma sys_step_selects a s s' :
  sys_step a s = Some s' →
  ∃ evs, trace s' = trace s ++ evs
  ∧ ((selections evs = [] ∧ window_index (glob s') = window_index (glob s)
      ∧ grant_of a s s' = None)
     ∨ ∃ w, selections evs = [w]
            ∧ windows (glob s)
                !! (window_index (glob s) `mod` length (windows (glob s)))%nat = Some w
            ∧ window_index (glob s') = S (window_index (glob s))
            ∧ ((sleeps evs ≠ [] ∧ grant_of a s s' = None)
               ∨ (sleeps evs = [] ∧ grant_of a s s' = Some w))).
Proof.
  assert (Hturn : ∀ path start g p g' evs,
            acquire_turn path start g = Some (p, g', evs) →
            (selections evs = [] ∧ window_index g' = window_index g
             ∧ window_given p = None)
            ∨ ∃ w, selections evs = [w]
                   ∧ windows g !! (window_index g `mod` length (windows g))%nat = Some w
                   ∧ window_index g' = S (window_index g)
                   ∧ ((sleeps evs ≠ [] ∧ window_given p = None)
                      ∨ (sleeps evs = [] ∧ window_given p = Some w))).
  { intros path start g p g' evs H.
    apply acquire_turn_cases in H
      as [(_ & -> & -> & ->)|[(_ & -> & -> & ->)|(w & o & Hw & Ho & Hcase)]];
      [by left|by left|].
    right. exists w.
    destruct Hcase as [(-> & -> & ->)|(b & _ & -> & [(_ & -> & ->)|(_ & -> & ->)])].
    - split_and!; try done. by left.
    - split_and!; try done. by right.
    - split_and!; try done. by right. }
  intros H. destruct a as [path|j r|ms|w]; simpl in H.
  - destruct (acquire_turn path (clock (glob s)) (glob s)) as [[[p g] evs]|] eqn:Ha;
      simplify_eq/=.
    exists evs. split; [done|]. rewrite last_snoc. simpl. by eapply Hturn.
  - destruct (jobs s !! j) as [p|] eqn:Hj; simplify_eq/=.
    destruct (step r p (glob s)) as [[[p' g] evs]|] eqn:Hst; simplify_eq/=.
    exists evs. split; [done|]. rewrite Hj.
    destruct (in_try p) as [l|] eqn:Hl.
    { destruct (step_turn_quiet _ _ _ _ _ _ _ Hl Hst) as [Hi _ _ _ Hse _ _].
      left. split_and!; [done|done|]. destruct r; [|done..]. by destruct p. }
    destruct p; simplify_eq/=.
    + destruct r; simplify_eq/=. case_match; [|done].
      rewrite list_lookup_insert_eq by (by eapply lookup_lt_Some). simpl.
      by eapply Hturn.
    + destruct r as [|[e|h]| | | | |]; simplify_eq/=; by left.
    + destruct r; simplify_eq/=. by left.
  - simplify_eq/=. exists []. split; [by rewrite app_nil_r|]. by left.
  - simplify_eq/=. exists []. split; [by rewrite app_nil_r|]. by left.
Qed.

Lemma sleeps_app evs1 evs2 : sleeps (evs1 ++ evs2) = sleeps evs1 ++ sleeps evs2.
Proof. apply filter_app. Qed.

(** Along a run that leaves the pool as it is, the selections follow
    the cursor, and without a refusal every selection is a grant. *)
Lemma run_selects acts s s' :
  run acts s = Some s' →
  windows (glob s') = windows (glob s) →
  ∃ evs, trace s' = trace s ++ evs
  ∧ window_index (glob s') = (window_index (glob s) + length (selections evs))%nat
  ∧ (∀ k w, selections evs !! k = Some w →
       windows (glob s)
         !! ((window_index (glob s) + k) `mod` length (windows (glob s)))%nat = Some w)
  ∧ (sleeps evs = [] → grants acts s = selections evs).
Proof.
  revert s. induction acts as [|a acts IH]; intros s H Hpool; simplify_eq/=.
  { exists []. rewrite app_nil_r. split_and!; [done|simpl; lia| |done].
    intros k w Hk. by destruct k. }
  destruct (sys_step a s) as [s1|] eqn:Ha; simplify_eq/=.
  assert (Hpool1 : windows (glob s1) = windows (glob s)).
  { apply (anti_symm sublist).
    - by apply pool_kept_or_filtered_sublist, (sys_step_shape _ _ _ Ha).
    - rewrite <- Hpool. by apply (run_shape _ _ _ H). }
  destruct (IH s1 H) as (evs2 & Ht2 & Hi2 & Hs2 & Hg2); [congruence|].
  destruct (sys_step_selects _ _ _ Ha) as (evs1 & Ht1 & Hcase).
  exists (evs1 ++ evs2). rewrite Ht2, Ht1, (assoc_L (++)), selections_app, sleeps_app.
  rewrite Hpool1 in Hs2.
  destruct Hcase as [(Hs1 & Hi1 & Hg1)|(w & Hs1 & Hw & Hi1 & Hg1)]; rewrite Hs1, Hg1 || rewrite Hs1.
  - rewrite Hi1 in Hi2, Hs2. split_and!; [done|done|done|].
    intros [_ ?]%app_eq_nil. simpl. by apply Hg2.
  - rewrite Hi1 in Hi2, Hs2. split_and!; [done|simpl; lia| |].
    + intros [|k] w' Hk; simpl in Hk.
      * simplify_eq. by rewrite Nat.add_0_r.
      * replace (window_index (glob s) + S k)%nat
          with (S (window_index (glob s)) + k)%nat by lia. by apply Hs2.
    + intros [Hsl1 Hsl2]%app_eq_nil.
      destruct Hg1 as [[? _]|[_ ->]]; [done|]. simpl. f_equal. by apply Hg2.
Qed.

Lemma hits_le_times pool c (ws : list nat) i w :
  (∀ k x, ws !! k = Some x → pool !! ((c + k) `mod` length pool)%nat = Some x) →
  pool !! i = Some w →
  (hits (length pool) i c (length ws) ≤ times w ws)%nat.
Proof.
  revert c. induction ws as [|x ws IH]; intros c Hws Hi; simpl; [lia|].
  unfold times. rewrite filter_cons.
  assert (Htail : (hits (length pool) i (S c) (length ws) ≤ times w ws)%nat).
  { apply IH; [|done]. intros k y Hk.
    replace (S c + k)%nat with (c + S k)%nat by lia. by apply Hws. }
  unfold times in Htail.
  pose proof (Hws 0%nat x eq_refl) as H0. rewrite Nat.add_0_r in H0.
  destruct (decide (c `mod` length pool = i))%nat as [Heq|Hne].
  - rewrite Heq, Hi in H0. simplify_eq. rewrite decide_True by done. simpl. lia.
  - case_decide; simpl; lia.
Qed.

Lemma round_robin_times pool c (ws : list nat) w :
  (∀ k x, ws !! k = Some x → pool !! ((c + k) `mod` length pool)%nat = Some x) →
  w ∈ pool →
  (length ws / length pool ≤ times w ws)%nat.
Proof.
  intros Hws [i Hi]%list_elem_of_lookup.
  etrans; [|by eapply hits_le_times].
  apply hits_floor. by eapply lookup_lt_Some.
Qed.

(** C7.  Every attempt that reaches the selection takes the window at
    index [window_index mod len(windows)], adds one to [window_index],
    and, when the token is granted, it is this window that the job goes
    on with.  Hence over any run of the system that leaves the pool as
    it is (requests entering, sleeping jobs resumed, jobs going on and
    ending, buckets refilling, time passing) the windows selected are
    those at the successive cursor values, and every window of the pool
    is selected at least floor (K / poolSize) times, K being the number
    of attempts.  If moreover no attempt is refused, the M windows
    handed to jobs are the windows selected, so every window of the
    pool is handed out at least floor (M / poolSize) times (for any M,
    in particular for M >= poolSize). *)
Theorem round_robin_is_fair :
  (∀ path start g p g' evs,
     acquire_turn path start g = Some (p, g', evs) → (∀ o, p ≠ PDone o) →
     ∃ w rest,
       windows g !! (window_index g `mod` length (windows g))%nat = Some w
       ∧ evs = EvSelect w :: rest ∧ (∀ w', EvSelect w' ∉ rest)
       ∧ window_index g' = S (window_index g)
       ∧ (∀ l, p = PConnect l ∨ p = PNewPage l → window_ l = w))
  ∧ (∀ acts s s' evs,
       run acts s = Some s' →
       windows (glob s') = windows (glob s) →
       trace s' = trace s ++ evs →
       let pool := windows (glob s) in
       (∀ k w, selections evs !! k = Some w →
          pool !! ((window_index (glob s) + k) `mod` length pool)%nat = Some w)
       ∧ (∀ w, w ∈ pool →
            (length (selections evs) / length pool ≤ times w (selections evs))%nat)
       ∧ (sleeps evs = [] →
            grants acts s = selections evs
            ∧ ∀ w, w ∈ pool →
                (length (grants acts s) / length pool ≤ times w (grants acts s))%nat)).
Proof.
  split.
  - intros path start g p g' evs H Hp.
    destruct (acquire_turn_selects _ _ _ _ _ _ H Hp) as (w & rest & Hw & -> & Hr & Hi & _).
    exists w, rest. split_and!; try done.
    intros l Hl.
    apply acquire_turn_cases in H
      as [(_ & -> & _)|[(_ & -> & _)|(w0 & o & Hw0 & _ & Hcase)]];
      [by destruct Hl|by destruct Hl|].
    rewrite Hw in Hw0. injection Hw0 as <-.
    destruct Hcase as [(-> & _)|(b & _ & _ & [(_ & -> & _)|(_ & -> & _)])];
      destruct Hl as [Hl|Hl]; by simplify_eq.
  - intros acts s s' evs H Hpool Ht pool.
    destruct (run_selects _ _ _ H Hpool) as (evs0 & Ht0 & _ & Hsel & Hgr).
    rewrite Ht in Ht0. apply app_inv_head in Ht0 as <-.
    split_and!; [done| |].
    + intros w Hw. by eapply round_robin_times.
    + intros Hsl. rewrite (Hgr Hsl). split; [done|].
      intros w Hw. by eapply round_robin_times.
Qed.

Lemma round_robin_is_fair_witness :
  let s := idle (two_windows unset) in
  grants nine_requests s = [0; 1; 0; 1; 0; 1; 0; 1; 0]%nat
  ∧ (9 / 2 ≤ times 0 (grants nine_requests s))%nat
  ∧ (9 / 2 ≤ times 1 (grants nine_requests s))%nat.
Proof.
  intros s.
  destruct round_robin_is_fair as [_ H].
  destruct (H nine_requests s (after nine_requests s) (trace (after nine_requests s)))
    as (_ & _ & Hfair).
  - vm_compute. reflexivity.
  - reflexivity.
  - reflexivity.
  - destruct Hfair as [Hg Hall]; [vm_compute; reflexivity|].
    split; [rewrite Hg; vm_compute; reflexivity|].
    assert (Hlen : length (grants nine_requests s) = 9%nat)
      by (rewrite Hg; vm_compute; reflexivity).
    rewrite Hlen in Hall. split.
    + apply (Hall 0%nat). apply list_elem_of_here.
    + apply (Hall 1%nat). apply list_elem_of_further, list_elem_of_here.
Defined.
